(** * The deep linker of the navigation system

    A shallow embedding of [src/navigation/deep-linker.ts]: URL
    normalisation, the bounded history buffer, the reaction to location
    changes, component lookup, default-history synthesis, tab selection
    and the reconciliation of one controller against its segment. *)

From Stdlib Require Import List NArith ZArith String Ascii Bool Lia.
Import ListNotations.

Local Open Scope string_scope.
Local Open Scope list_scope.

(** ** JavaScript strings

    A string is its sequence of UTF-16 code units; [===] on strings
    compares the sequences. *)

Definition jsstring : Type := list N.

Definition js (s : string) : jsstring :=
  map N_of_ascii (list_ascii_of_string s).

Fixpoint strictEq (a b : jsstring) : bool :=
  match a, b with
  | [], [] => true
  | x :: a', y :: b' => (x =? y)%N && strictEq a' b'
  | _, _ => false
  end.

(** [x === y] where [x] may be [undefined] and [y] is a string. *)
Definition strictEqOpt (x : option jsstring) (y : jsstring) : bool :=
  match x with
  | Some v => strictEq v y
  | None => false
  end.

(** [arr[i]] for a possibly negative or out-of-range [i]: [undefined]. *)
Definition index {A : Type} (arr : list A) (i : Z) : option A :=
  if (i <? 0)%Z then None else nth_error arr (Z.to_nat i).

Definition len {A : Type} (arr : list A) : Z := Z.of_nat (List.length arr).

(** [s.charAt(i)]: the one-unit string at [i], or the empty string. *)
Definition charAt (s : jsstring) (i : Z) : jsstring :=
  match index s i with
  | Some c => [c]
  | None => []
  end.

(** [s.substr(start, count)]; a negative [start] counts from the end. *)
Definition substr (s : jsstring) (start count : Z) : jsstring :=
  let start := if (start <? 0)%Z then Z.max (len s + start) 0 else start in
  firstn (Z.to_nat count) (skipn (Z.to_nat start) s).

(** White space and line terminators, the code units [trim] removes
    (ECMAScript 2016 and later, where U+180E is no longer one). *)
Definition isWhiteSpace (c : N) : bool :=
  ((9 <=? c) && (c <=? 13) || (c =? 32) || (c =? 160) || (c =? 5760)
   || (8192 <=? c) && (c <=? 8202) || (c =? 8232) || (c =? 8233)
   || (c =? 8239) || (c =? 8287) || (c =? 12288) || (c =? 65279))%N.

Fixpoint trimStart (s : jsstring) : jsstring :=
  match s with
  | c :: s' => if isWhiteSpace c then trimStart s' else s
  | [] => []
  end.

Definition trimEnd (s : jsstring) : jsstring := rev (trimStart (rev s)).

Definition trim (s : jsstring) : jsstring := trimEnd (trimStart s).

(** ** normalizeUrl *)

Definition normalizeUrl (browserUrl : jsstring) : jsstring :=
  let browserUrl := trim browserUrl in
  let browserUrl :=
    if negb (strictEq (charAt browserUrl 0) (js "/"))
    then js "/" ++ browserUrl
    else browserUrl in
  if (1 <? len browserUrl)%Z
     && strictEq (charAt browserUrl (len browserUrl - 1)) (js "/")
  then substr browserUrl 0 (len browserUrl - 1)
  else browserUrl.

(** The step of [normalizeUrl] that follows trimming, on its own: the
    first unit is made a slash. *)
Definition leadSlash (t : jsstring) : jsstring :=
  match t with
  | c :: _ => if (c =? 47)%N then t else 47%N :: t
  | [] => [47%N]
  end.

(** ** Promises and abrupt completion

    A promise is modelled by the state it settles in; a call either
    returns or throws before it returns anything. *)

Inductive Promise (A : Type) : Type :=
| Resolved (value : A)
| Rejected (reason : jsstring).

Arguments Resolved {A} value.
Arguments Rejected {A} reason.

Inductive Exception : Type :=
| TypeError.

Inductive Completion (A : Type) : Type :=
| Normal (value : A)
| Throw (error : Exception).

Arguments Normal {A} value.
Arguments Throw {A} error.

(** [p.then(onFulfilled)], where the handler returns a promise (a plain
    value [v] is the handler returning [Resolved v]). *)
Definition andThen {A B : Type} (p : Promise A) (onFulfilled : A -> Promise B)
  : Promise B :=
  match p with
  | Resolved v => onFulfilled v
  | Rejected reason => Rejected reason
  end.

(** [Promise.all(ps)]: the values in order when every promise resolves,
    and the rejection when one promise rejects.  When several reject,
    [Promise.all] rejects with the one that settles first; a settled
    state carries no time, and the first rejection in list order is
    taken here.  What is stated below of a rejected list is stated for
    a list with one rejection. *)
Fixpoint promiseAll {A : Type} (ps : list (Promise A)) : Promise (list A) :=
  match ps with
  | [] => Resolved []
  | p :: ps' =>
      andThen p (fun v => andThen (promiseAll ps') (fun vs => Resolved (v :: vs)))
  end.

(** Truthiness of an optional string: [undefined] and [''] are falsy. *)
Definition truthy (s : option jsstring) : bool :=
  match s with
  | Some (_ :: _) => true
  | _ => false
  end.

(** Modelled from the spec: the constant [DIRECTION_BACK] comes from
    nav-util, which is not under src/; section 4.4 names the direction
    "back". *)
Definition DIRECTION_BACK : jsstring := js "back".

(** ** Numbers

    The numbers the linker handles are tab positions: non-negative
    integers, held as doubles.  A double holds every integer below 2^53
    exactly; above, only the multiples of a power of two, and nothing
    finite from 2^1024 on. *)

Inductive JsNumber : Type :=
| number (n : N)
| Infinity.

Coercion number : N >-> JsNumber.

Bind Scope N_scope with JsNumber.

(** The Number value of a non-negative integer [n]: [n] itself below
    2^53, and otherwise the nearest double, the one with an even
    significand when two are as near (53 bits of significand are kept;
    [ulp] is the weight of the last of them). *)
Definition toNumber (n : N) : JsNumber :=
  if (n <? 2 ^ 53)%N then number n
  else
    let ulp := (2 ^ (N.log2 n - 52))%N in
    let q := (n / ulp)%N in
    let r := (n mod ulp)%N in
    let q' := if (ulp <? 2 * r)%N || ((2 * r =? ulp)%N && N.odd q)
              then (q + 1)%N else q in
    if (N.log2 (q' * ulp) <? 1024)%N then number (q' * ulp) else Infinity.

(** ** Data model *)

Section Model.

Context {Component Data : Type}.

Record ViewController : Type := {
  view_component : option Component;
  view_data : option Data;
  view_id : option jsstring
}.

(** Modelled from the spec: the [ViewController] class is not under
    src/.  Section 4.3 speaks of a view constructed from a component
    and data and tagged with an id afterwards: a view is recorded by
    the component and the data its constructor was given, as they were
    given (what the constructor stores in place of absent data is not
    modelled), and has no id yet. *)
Definition newViewController (component : option Component) (data : option Data)
  : ViewController :=
  {| view_component := component; view_data := data; view_id := None |}.

Definition setViewId (view : ViewController) (id : jsstring) : ViewController :=
  {| view_component := view_component view;
     view_data := view_data view;
     view_id := Some id |}.

Record NavSegment : Type := {
  seg_id : jsstring;
  seg_name : jsstring;
  seg_component : option Component;
  seg_data : option Data;
  seg_navId : option jsstring;
  seg_defaultHistory : option (list jsstring)
}.

Definition setNavId (segment : NavSegment) (navId : jsstring) : NavSegment :=
  {| seg_id := seg_id segment;
     seg_name := seg_name segment;
     seg_component := seg_component segment;
     seg_data := seg_data segment;
     seg_navId := Some navId;
     seg_defaultHistory := seg_defaultHistory segment |}.

Definition setSegComponent (segment : NavSegment) (component : Component)
  : NavSegment :=
  {| seg_id := seg_id segment;
     seg_name := seg_name segment;
     seg_component := Some component;
     seg_data := seg_data segment;
     seg_navId := seg_navId segment;
     seg_defaultHistory := seg_defaultHistory segment |}.

Record NavLink : Type := {
  link_name : jsstring;
  link_component : option Component;
  link_loadChildren : option jsstring
}.

Definition setLinkComponent (link : NavLink) (component : Component) : NavLink :=
  {| link_name := link_name link;
     link_component := Some component;
     link_loadChildren := link_loadChildren link |}.

(** A tab's [index] is its position in the container: an integer that
    a number holds exactly. *)
Record Tab : Type := {
  tabUrlPath : option jsstring;
  tabTitle : option jsstring;
  tab_index : N;
  tab_index_safe : (tab_index <? 2 ^ 53)%N = true
}.

(** A controller of the live tree: an ion-nav or a tab with its stack of
    views, or a tabs container with its tabs.  [activeChildNav] is what
    [getActiveChildNav()] answers once this controller has settled. *)
Inductive NavBody : Type :=
| NavStack (views : list ViewController)
| TabsGroup (tabs : list Tab).

#[local] Unset Elimination Schemes.

Inductive NavInstance : Type :=
| mkNav (id : jsstring) (parent : option jsstring) (body : NavBody)
        (activeChildNav : option NavInstance).

#[local] Set Elimination Schemes.

Definition nav_id (nav : NavInstance) : jsstring :=
  match nav with mkNav id _ _ _ => id end.

(** The id of [nav.parent], when there is a parent. *)
Definition nav_parent (nav : NavInstance) : option jsstring :=
  match nav with mkNav _ parent _ _ => parent end.

Definition nav_body (nav : NavInstance) : NavBody :=
  match nav with mkNav _ _ body _ => body end.

Definition getActiveChildNav (nav : NavInstance) : option NavInstance :=
  match nav with mkNav _ _ _ child => child end.

(** The options literal handed to the navigation primitives. *)
Record NavOptions : Type := {
  opt_id : option jsstring;
  animate : option bool;
  updateUrl : option bool;
  isNavRoot : option bool
}.

(** Calls made on collaborators, in the order they are made. *)
Inductive NavCall : Type :=
| select (index : JsNumber) (opts : NavOptions)
| popTo (view : ViewController) (opts : NavOptions)
| push (component : option Component) (data : option Data) (opts : NavOptions)
| goToRoot (opts : NavOptions).

Inductive Effect : Type :=
| onNav (navId : jsstring) (call : NavCall)
| serializerParse (url : jsstring)
| locationBack
| locationGo (url : jsstring).

(** The collaborators, at their interface. *)
Record UrlSerializer : Type := {
  parse : jsstring -> list NavSegment;
  getLinkFromName : jsstring -> option NavLink;
  formatUrlPart : jsstring -> jsstring
}.

Record Location : Type := {
  path : jsstring
}.

(** [load(locator)] settles with the component of the loaded module. *)
Record ModuleLoader : Type := {
  load : jsstring -> Promise Component
}.

Record App : Type := {
  getRootNav : option NavInstance
}.

Record DeepLinker : Type := {
  _segments : list NavSegment;
  _history : list jsstring;
  _indexAliasUrl : option jsstring;
  _app : App;
  _serializer : UrlSerializer;
  _location : Location;
  _moduleLoader : ModuleLoader
}.

Definition setSegments (d : DeepLinker) (segments : list NavSegment) : DeepLinker :=
  {| _segments := segments;
     _history := _history d;
     _indexAliasUrl := _indexAliasUrl d;
     _app := _app d;
     _serializer := _serializer d;
     _location := _location d;
     _moduleLoader := _moduleLoader d |}.

Definition setHistory (d : DeepLinker) (history : list jsstring) : DeepLinker :=
  {| _segments := _segments d;
     _history := history;
     _indexAliasUrl := _indexAliasUrl d;
     _app := _app d;
     _serializer := _serializer d;
     _location := _location d;
     _moduleLoader := _moduleLoader d |}.

(** ** History tracker *)

Definition _isBackUrl (d : DeepLinker) (browserUrl : jsstring) : bool :=
  strictEqOpt (index (_history d) (len (_history d) - 2)) browserUrl.

Definition _isCurrentUrl (d : DeepLinker) (browserUrl : jsstring) : bool :=
  strictEqOpt (index (_history d) (len (_history d) - 1)) browserUrl.

Definition _historyPush (browserUrl : jsstring) (d : DeepLinker) : DeepLinker :=
  if negb (_isCurrentUrl d browserUrl) then
    let d := setHistory d (_history d ++ [browserUrl]) in
    if (30 <? len (_history d))%Z
    then setHistory d (tl (_history d))
    else d
  else d.

Definition _historyPop (d : DeepLinker) : DeepLinker :=
  let d := setHistory d (removelast (_history d)) in
  if (len (_history d) =? 0)%Z
  then _historyPush (path (_location d)) d
  else d.

(** The cap of the history buffer, as a property of the linker. *)
Definition historyBounded (d : DeepLinker) : Prop :=
  (List.length (_history d) <= 30)%nat.

(** ** Tab selection *)

Definition isDigit (c : N) : bool := ((48 <=? c) && (c <=? 57))%N.

(** The longest run of digits at the head of [s]: what a greedy [\d+]
    consumes there. *)
Fixpoint takeDigits (s : jsstring) : jsstring :=
  match s with
  | c :: s' => if isDigit c then c :: takeDigits s' else []
  | [] => []
  end.

(** [s] without the prefix [p], when [s] starts with [p]. *)
Fixpoint stripPrefix (p s : jsstring) : option jsstring :=
  match p, s with
  | [], _ => Some s
  | x :: p', y :: s' => if (x =? y)%N then stripPrefix p' s' else None
  | _ :: _, [] => None
  end.

(** The pattern [/tab-(\d+)/] tried at the head of [s]: the capture. *)
Definition matchHere (s : jsstring) : option jsstring :=
  match stripPrefix (js "tab-") s with
  | Some rest =>
      match takeDigits rest with
      | [] => None
      | digits => Some digits
      end
  | None => None
  end.

(** [pathName.match(/tab-(\d+)/)]: the capture of the leftmost match. *)
Fixpoint indexMatch (pathName : jsstring) : option jsstring :=
  match matchHere pathName with
  | Some digits => Some digits
  | None =>
      match pathName with
      | [] => None
      | _ :: rest => indexMatch rest
      end
  end.

(** The integer a run of decimal digits is read as, digit by digit. *)
Definition mathInt (digits : jsstring) : N :=
  fold_left (fun acc c => (acc * 10 + (c - 48))%N) digits 0%N.

(** [parseInt(digits, 10)] on a non-empty run of decimal digits: the
    Number value of the integer read.  (Past twenty significant digits
    the language lets an implementation read the further ones as zeros;
    they are read as they are here.) *)
Definition parseInt (digits : jsstring) : JsNumber :=
  toNumber (mathInt digits).

(** A name has a tab index when [tab-] followed by a digit occurs
    somewhere in it. *)
Definition allDigits (digits : jsstring) : Prop :=
  Forall (fun c => isDigit c = true) digits.

Definition containsTabIndex (pathName : jsstring) : Prop :=
  exists pre digits rest,
    pathName = pre ++ js "tab-" ++ digits ++ rest /\
    digits <> [] /\ allDigits digits.

(** The predicate handed to [_tabs.find]. *)
Definition tabMatches (d : DeepLinker) (pathName : jsstring) (t : Tab) : bool :=
  match tabUrlPath t with
  | Some p => strictEq p pathName
  | None => false
  end
  ||
  match tabTitle t with
  | Some title => strictEq (formatUrlPart (_serializer d) title) pathName
  | None => false
  end.

(** The same as a proposition: the tab's url path is the name, or its
    formatted title is. *)
Definition tabNamed (d : DeepLinker) (pathName : jsstring) (t : Tab) : Prop :=
  tabUrlPath t = Some pathName \/
  exists title, tabTitle t = Some title /\
                formatUrlPart (_serializer d) title = pathName.

Definition getSelectedTabIndex (d : DeepLinker) (tabs : list Tab)
    (pathName : jsstring) (fallbackIndex : N) : JsNumber :=
  match indexMatch pathName with
  | Some digits => parseInt digits
  | None =>
      match find (tabMatches d pathName) tabs with
      | Some tab => number (tab_index tab)
      | None => number fallbackIndex
      end
  end.

(** ** Attribution of segments to controllers *)

(** The loop of [initNav] over [i >= 1]: [prev] is [path[i - 1]] and
    [rest] starts at [path[i]]. *)
Fixpoint initNavLoop (navId parentId : jsstring) (prev : NavSegment)
    (rest : list NavSegment) : option (NavSegment * list NavSegment) :=
  match rest with
  | [] => None
  | segment :: rest' =>
      if strictEqOpt (seg_navId prev) parentId
      then Some (setNavId segment navId, setNavId segment navId :: rest')
      else
        match initNavLoop navId parentId segment rest' with
        | Some (found, rest'') => Some (found, segment :: rest'')
        | None => None
        end
  end.

Definition initNav (nav : NavInstance) (d : DeepLinker)
  : option NavSegment * DeepLinker :=
  match _segments d with
  | [] => (None, d)
  | first :: rest =>
      match nav_parent nav with
      | None =>
          let first := setNavId first (nav_id nav) in
          (Some first, setSegments d (first :: rest))
      | Some parentId =>
          match initNavLoop (nav_id nav) parentId first rest with
          | Some (found, rest') => (Some found, setSegments d (first :: rest'))
          | None => (None, d)
          end
      end
  end.

(** ** Path loader *)

Definition reconcileOptions : NavOptions :=
  {| opt_id := None; animate := Some false; updateUrl := Some false;
     isNavRoot := None |}.

Definition pushOptions (id : jsstring) : NavOptions :=
  {| opt_id := Some id; animate := Some false; updateUrl := Some false;
     isNavRoot := None |}.

(** The backwards walk of [_loadViewFromSegment]: [n] is [i + 1], so the
    walk starts with [n = count + 1].  [Some calls] when a view with the
    segment's id was met, [None] when the loop ran out. *)
Fixpoint walkBackwards (views : list ViewController) (segment : NavSegment)
    (count : Z) (n : nat) : option (list NavCall) :=
  match n with
  | O => None
  | S i =>
      match nth_error views i with
      | Some view =>
          if strictEqOpt (view_id view) (seg_id segment)
          then Some (if (Z.of_nat i =? count)%Z
                     then []
                     else [popTo view reconcileOptions])
          else walkBackwards views segment count i
      | None => walkBackwards views segment count i
      end
  end.

Definition _loadViewFromSegment (navInstance : NavInstance) (d : DeepLinker)
  : DeepLinker * list Effect :=
  match initNav navInstance d with
  | (None, d) => (d, [])
  | (Some segment, d) =>
      match nav_body navInstance with
      | TabsGroup tabs =>
          (d, [onNav (nav_id navInstance)
                 (select (getSelectedTabIndex d tabs (seg_name segment) 0)
                         reconcileOptions)])
      | NavStack views =>
          let count := (len views - 1)%Z in
          match walkBackwards views segment count (Z.to_nat (count + 1)) with
          | Some calls => (d, map (onNav (nav_id navInstance)) calls)
          | None =>
              (d, [onNav (nav_id navInstance)
                     (push (seg_component segment) (seg_data segment)
                           (pushOptions (seg_id segment)))])
          end
      end
  end.

(** The walk down the active controllers; each [done] continues with
    the active child of the controller just reconciled. *)
Fixpoint _loadNavFromPath (nav : NavInstance) (d : DeepLinker)
  : DeepLinker * list Effect :=
  let (d, effects) := _loadViewFromSegment nav d in
  match getActiveChildNav nav with
  | None => (d, effects)
  | Some child =>
      let (d, effects') := _loadNavFromPath child d in
      (d, effects ++ effects')
  end.

(** ** Deep linker *)

Definition goToRootOptions : NavOptions :=
  {| opt_id := None; animate := None; updateUrl := Some false;
     isNavRoot := Some true |}.

(** The browser's location has been updated somehow. *)
Definition _urlChange (browserUrl : jsstring) (d : DeepLinker)
  : DeepLinker * list Effect :=
  if negb (_isCurrentUrl d browserUrl) then
    let d := if _isBackUrl d browserUrl
             then _historyPop d
             else _historyPush browserUrl d in
    match getRootNav (_app d) with
    | Some appRootNav =>
        let loadPath (browserUrl : jsstring) :=
          let d := setSegments d (parse (_serializer d) browserUrl) in
          let (d, effects) := _loadNavFromPath appRootNav d in
          (d, serializerParse browserUrl :: effects) in
        if strictEq browserUrl (js "/") then
          match _indexAliasUrl d with
          | Some alias => loadPath alias
          | None => (d, [onNav (nav_id appRootNav) (goToRoot goToRootOptions)])
          end
        else loadPath browserUrl
    | None => (d, [])
    end
  else (d, []).

Definition _updateLocation (browserUrl direction : jsstring) (d : DeepLinker)
  : DeepLinker * list Effect :=
  let browserUrl :=
    if strictEqOpt (_indexAliasUrl d) browserUrl then js "/" else browserUrl in
  if strictEq direction DIRECTION_BACK && _isBackUrl d browserUrl then
    (_historyPop d, [locationBack])
  else if negb (_isCurrentUrl d browserUrl) then
    (_historyPush browserUrl d, [locationGo browserUrl])
  else (d, []).

(** [init], and the subscription it installs: every later location
    change is normalised and handed to [_urlChange]. *)
Definition init (d : DeepLinker) : DeepLinker * list Effect :=
  let browserUrl := normalizeUrl (path (_location d)) in
  let d := setSegments d (parse (_serializer d) browserUrl) in
  (_historyPush browserUrl d, [serializerParse browserUrl]).

Definition onLocationChange (url : jsstring) (d : DeepLinker)
  : DeepLinker * list Effect :=
  _urlChange (normalizeUrl url) d.

(** ** Component lookup *)

(** The settled promise, and the link as the call leaves it: a lazy
    load that succeeds stores the component in the link. *)
Definition getNavLinkComponent (d : DeepLinker) (link : NavLink)
  : NavLink * Promise Component :=
  match link_component link with
  | Some component => (link, Resolved component)
  | None =>
      match link_loadChildren link with
      | Some ((_ :: _) as locator) =>
          match load (_moduleLoader d) locator with
          | Resolved component =>
              (setLinkComponent link component, Resolved component)
          | Rejected reason => (link, Rejected reason)
          end
      | _ => (link, Rejected (js "invalid link component: " ++ link_name link))
      end
  end.

Definition getComponentFromName (d : DeepLinker) (componentName : jsstring)
  : Promise Component :=
  match getLinkFromName (_serializer d) componentName with
  | Some link => snd (getNavLinkComponent d link)
  | None => Rejected (js "invalid link: " ++ componentName)
  end.

(** ** Default-history synthesis *)

(** Modelled from the spec: [convertToViews] comes from nav-util, which
    is not under src/.  Section 4.5: the names of the default history
    are resolved into their own view instances, each looked up by name;
    the list settles once every name has. *)
Definition convertToViews (d : DeepLinker) (pages : list jsstring)
  : Promise (list ViewController) :=
  promiseAll
    (map (fun page =>
            andThen (getComponentFromName d page)
                    (fun component =>
                       Resolved (newViewController (Some component) None)))
         pages).

(** [initViews] hands the outcome of [getLinkFromName] to
    [getNavLinkComponent] unchecked; with no link, reading
    [link.component] throws before any promise exists.  Otherwise the
    segment as the call leaves it, and the settled promise. *)
Definition initViews (d : DeepLinker) (segment : NavSegment)
  : Completion (NavSegment * Promise (list ViewController)) :=
  match getLinkFromName (_serializer d) (seg_name segment) with
  | None => Throw TypeError
  | Some link =>
      match snd (getNavLinkComponent d link) with
      | Rejected reason => Normal (segment, Rejected reason)
      | Resolved component =>
          let segment := setSegComponent segment component in
          let view :=
            setViewId (newViewController (Some component) (seg_data segment))
                      (seg_id segment) in
          match seg_defaultHistory segment with
          | Some defaultHistory =>
              Normal (segment,
                      andThen (convertToViews d defaultHistory)
                              (fun views => Resolved (views ++ [view])))
          | None => Normal (segment, Resolved [view])
          end
      end
  end.

End Model.

(** ** Vocabulary of the further properties *)

Definition allWhiteSpace (s : jsstring) : Prop :=
  Forall (fun c => isWhiteSpace c = true) s.

(** A path with nothing to clean: no slash and no white space at either
    end. *)
Definition cleanPath (t : jsstring) : Prop :=
  (forall c s, t = c :: s -> c <> 47%N /\ isWhiteSpace c = false) /\
  (forall s c, t = s ++ [c] -> c <> 47%N /\ isWhiteSpace c = false).

(** No entry of the history is directly followed by an equal one. *)
Definition noRepeat (history : list jsstring) : Prop :=
  forall pre a b post, history = pre ++ a :: b :: post -> a <> b.

Section Vocabulary.

Context {Component Data : Type}.

Definition callOptions (call : @NavCall Component Data) : NavOptions :=
  match call with
  | select _ opts | popTo _ opts | push _ _ opts | goToRoot opts => opts
  end.

(** A call of the path loader: a selection, a pop or a push, without
    animation and without a url update. *)
Definition reconcileEffect (e : @Effect Component Data) : Prop :=
  match e with
  | onNav _ (goToRoot _) => False
  | onNav _ call =>
      animate (callOptions call) = Some false /\
      updateUrl (callOptions call) = Some false
  | _ => False
  end.

(** An effect that cannot come back as a location change: a parse, or a
    call on a controller that forbids the url update. *)
Definition quietEffect (e : @Effect Component Data) : Prop :=
  match e with
  | onNav _ call => updateUrl (callOptions call) = Some false
  | serializerParse _ => True
  | locationBack | locationGo _ => False
  end.

(** A segment with its owner forgotten. *)
Definition eraseNavId (segment : @NavSegment Component Data) : NavSegment :=
  {| seg_id := seg_id segment;
     seg_name := seg_name segment;
     seg_component := seg_component segment;
     seg_data := seg_data segment;
     seg_navId := None;
     seg_defaultHistory := seg_defaultHistory segment |}.

End Vocabulary.

(** ** Tab selectors *)

(** The decimal digits of [n] in front of [acc]; [fuel] bounds the
    number of digits. *)
Fixpoint decimalDigits (fuel : nat) (n : N) (acc : jsstring) : jsstring :=
  match fuel with
  | O => acc
  | S fuel' =>
      let acc := (48 + n mod 10)%N :: acc in
      if (n / 10 =? 0)%N then acc else decimalDigits fuel' (n / 10) acc
  end.

(** A non-negative integer inside a template literal: its decimal
    digits (a number has no more decimal than binary digits). *)
Definition numberToString (n : N) : jsstring :=
  decimalDigits (S (N.to_nat (N.log2 n))) n [].

(** The number a run of decimal digits writes: every digit counts for
    its value times the power of ten of its place. *)
Fixpoint decimalValue (digits : jsstring) : N :=
  match digits with
  | [] => 0%N
  | c :: rest =>
      ((c - 48) * 10 ^ N.of_nat (List.length rest) + decimalValue rest)%N
  end.

(** ** Path builder *)

Section PathBuilder.

Context {Component Data : Type}.

Definition _getTabSelector (d : @DeepLinker Component Data) (tab : Tab)
  : jsstring :=
  match tabUrlPath tab with
  | Some urlPath => urlPath
  | None =>
      match tabTitle tab with
      | Some title => formatUrlPart (_serializer d) title
      | None => js "tab-" ++ numberToString (tab_index tab)
      end
  end.

(** A controller as the path builder sees it, from the leaf up: whether
    it is a nav ([isNav]: an ion-nav or a tab, not a tabs container),
    its active view, the tab it is when it is one ([isTab]), and its
    parent. *)
#[local] Unset Elimination Schemes.

Inductive NavNode : Type :=
| mkNode (isNav : bool) (getActive : option (@ViewController Component Data))
         (tab : option Tab) (parent : option NavNode).

#[local] Set Elimination Schemes.

Definition node_parent (nav : NavNode) : option NavNode :=
  match nav with mkNode _ _ _ parent => parent end.

(** [nav.parent && nav.parent.parent] *)
Definition node_grandparent (nav : NavNode) : option NavNode :=
  match node_parent nav with
  | Some parent => node_parent parent
  | None => None
  end.

(** The rest of the serializer and of the location, at their interface. *)
Record PathSerializer : Type := {
  serialize : list (@NavSegment Component Data) -> jsstring;
  serializeComponent :
    option Component -> option Data -> option (@NavSegment Component Data);
  createSegmentFromName :
    jsstring + Component -> option (@NavSegment Component Data);
  prepareExternalUrl : jsstring -> jsstring
}.

(** The segment that says which tab is selected. *)
Definition tabSelectorSegment (tabSelector : jsstring)
  : @NavSegment Component Data :=
  {| seg_id := tabSelector;
     seg_name := tabSelector;
     seg_component := None;
     seg_data := None;
     seg_navId := None;
     seg_defaultHistory := None |}.

(** The component and data the loop serializes at [nav]: the ones passed
    in, or those of the active view when no component was passed and
    the controller is a nav. *)
Definition componentAt (nav : NavNode) (component : option Component)
    (data : option Data) : option Component * option Data :=
  match nav with
  | mkNode isNav getActive _ _ =>
      match component with
      | Some _ => (component, data)
      | None =>
          if isNav then
            match getActive with
            | Some view => (view_component view, view_data view)
            | None => (component, data)
            end
          else (component, data)
      end
  end.

(** The loop of [_pathFromNavs]: the segments in the order they are
    pushed, leaf first. *)
Fixpoint climb (d : @DeepLinker Component Data) (ps : PathSerializer)
    (nav : NavNode) (component : option Component) (data : option Data)
  : list (@NavSegment Component Data) :=
  let (component, data) := componentAt nav component data in
  match serializeComponent ps component data with
  | None => []
  | Some segment =>
      match nav with
      | mkNode _ _ (Some tab) parent =>
          segment :: tabSelectorSegment (_getTabSelector d tab) ::
          match parent with
          | Some (mkNode _ _ _ (Some grandparent)) =>
              climb d ps grandparent None None
          | _ => []
          end
      | mkNode _ _ None parent =>
          segment ::
          match parent with
          | Some parent => climb d ps parent None None
          | None => []
          end
      end
  end.

Definition _pathFromNavs (d : @DeepLinker Component Data) (ps : PathSerializer)
    (nav : option NavNode) (component : option Component) (data : option Data)
  : list (@NavSegment Component Data) :=
  match nav with
  | Some nav => rev (climb d ps nav component data)
  | None => []
  end.

(** [navChange]: the active nav is what [getActiveNav()] answers. *)
Definition navChange (ps : PathSerializer) (activeNav : option NavNode)
    (direction : option jsstring) (d : @DeepLinker Component Data)
  : DeepLinker * list Effect :=
  match direction with
  | Some ((_ :: _) as direction) =>
      match activeNav with
      | Some activeNav =>
          let d := setSegments d (_pathFromNavs d ps (Some activeNav) None None) in
          let browserUrl := serialize ps (_segments d) in
          _updateLocation browserUrl direction d
      | None => (d, [])
      end
  | _ => (d, [])
  end.

Definition createUrl (ps : PathSerializer) (d : @DeepLinker Component Data)
    (nav : option NavNode) (nameOrComponent : jsstring + Component)
    (data : option Data) (external : bool) : jsstring :=
  match createSegmentFromName ps nameOrComponent with
  | Some segment =>
      let path := _pathFromNavs d ps nav (seg_component segment) data in
      let url := serialize ps path in
      if external then prepareExternalUrl ps url else url
  | None => []
  end.

End PathBuilder.

(** ** A small application

    The scenario of the documentation: a list page and a detail page
    whose default history is the list, next to a lazily loaded page and
    a link that has neither a component nor a locator. *)

Inductive Page : Type :=
| HomePage
| ListPage
| DetailPage
| LazyPage.

Definition Params : Type := list (jsstring * jsstring).

Definition appLinks : list (@NavLink Page) :=
  [ {| link_name := js "home"; link_component := Some HomePage;
       link_loadChildren := None |};
    {| link_name := js "list"; link_component := Some ListPage;
       link_loadChildren := None |};
    {| link_name := js "detail-page"; link_component := Some DetailPage;
       link_loadChildren := None |};
    {| link_name := js "lazy"; link_component := None;
       link_loadChildren := Some (js "lazy.module#LazyPageModule") |};
    {| link_name := js "broken"; link_component := None;
       link_loadChildren := None |} ].

Definition detailSegment : @NavSegment Page Params :=
  {| seg_id := js "detail/42";
     seg_name := js "detail-page";
     seg_component := Some DetailPage;
     seg_data := Some [(js "id", js "42")];
     seg_navId := None;
     seg_defaultHistory := Some [js "list"] |}.

Definition appSerializer : @UrlSerializer Page Params :=
  {| parse := fun url =>
       if strictEq url (js "/detail/42") then [detailSegment] else [];
     getLinkFromName := fun name =>
       find (fun link => strictEq (link_name link) name) appLinks;
     formatUrlPart := fun title =>
       map (fun c => if (c =? 32)%N then 45%N
                     else if ((65 <=? c) && (c <=? 90))%N then (c + 32)%N
                     else c) title |}.

Definition appLoader : @ModuleLoader Page :=
  {| load := fun locator =>
       if strictEq locator (js "lazy.module#LazyPageModule")
       then Resolved LazyPage
       else Rejected (js "module not found") |}.

(** A linker of the application with the given history and index alias,
    no root controller yet, and the browser at [/list]. *)
Definition appLinker (history : list jsstring) (alias : option jsstring)
  : @DeepLinker Page Params :=
  {| _segments := [];
     _history := history;
     _indexAliasUrl := alias;
     _app := {| getRootNav := None |};
     _serializer := appSerializer;
     _location := {| path := js "/list" |};
     _moduleLoader := appLoader |}.

(** Thirty entries [/p], [/pp], ... *)
Definition fullHistory : list jsstring :=
  map (fun n => 47%N :: repeat 112%N (S n)) (seq 0 30).

(** The browser was opened at [/home], which is also the index alias,
    and the user went on to the detail page. *)
Definition aliasLinker : @DeepLinker Page Params :=
  appLinker [js "/home"; js "/detail/42"] (Some (js "/home")).

(** A tabs container at the root, and the segment that selects a tab by
    name, as the path builder writes it. *)
Definition homeTab : Tab :=
  {| tabUrlPath := Some (js "home"); tabTitle := Some (js "Home");
     tab_index := 0;
     tab_index_safe := eq_refl |}.

Definition settingsTab : Tab :=
  {| tabUrlPath := Some (js "settings"); tabTitle := Some (js "Settings");
     tab_index := 1;
     tab_index_safe := eq_refl |}.

(** A first tab whose configured url path happens to read [tab-1]. *)
Definition numberedTab : Tab :=
  {| tabUrlPath := Some (js "tab-1"); tabTitle := None; tab_index := 0;
     tab_index_safe := eq_refl |}.

Definition tabsNav (tabs : list Tab) : @NavInstance Page Params :=
  mkNav (js "t0") None (TabsGroup tabs) None.

Definition selectorSegment (selector : jsstring) : @NavSegment Page Params :=
  {| seg_id := selector;
     seg_name := selector;
     seg_component := None;
     seg_data := None;
     seg_navId := None;
     seg_defaultHistory := None |}.

Definition linkerAt (segments : list (@NavSegment Page Params))
  : @DeepLinker Page Params :=
  setSegments (appLinker [js "/"] None) segments.

(** A root ion-nav holding the given views. *)
Definition stackNav (views : list (@ViewController Page Params))
  : @NavInstance Page Params :=
  mkNav (js "n0") None (NavStack views) None.

Definition viewOf (page : Page) (id : string) : @ViewController Page Params :=
  {| view_component := Some page; view_data := None; view_id := Some (js id) |}.

(** The same linker once the application has a root controller. *)
Definition withRoot (d : @DeepLinker Page Params)
    (root : @NavInstance Page Params) : @DeepLinker Page Params :=
  {| _segments := _segments d;
     _history := _history d;
     _indexAliasUrl := _indexAliasUrl d;
     _app := {| getRootNav := Some root |};
     _serializer := _serializer d;
     _location := _location d;
     _moduleLoader := _moduleLoader d |}.

(** The other half of the application's serializer: a page is written
    by the name of its link, the detail page by its url part, and a path
    is its segments' ids behind slashes. *)
Definition pageSegment (page : Page) (data : option Params)
  : @NavSegment Page Params :=
  match page with
  | HomePage => selectorSegment (js "home")
  | ListPage => selectorSegment (js "list")
  | LazyPage => selectorSegment (js "lazy")
  | DetailPage =>
      {| seg_id := js "detail/42"; seg_name := js "detail-page";
         seg_component := Some DetailPage; seg_data := data;
         seg_navId := None; seg_defaultHistory := Some [js "list"] |}
  end.

Definition appPaths : @PathSerializer Page Params :=
  {| serialize := fun segments =>
       flat_map (fun segment => js "/" ++ seg_id segment) segments;
     serializeComponent := fun component data =>
       match component with
       | Some page => Some (pageSegment page data)
       | None => None
       end;
     createSegmentFromName := fun nameOrComponent =>
       match nameOrComponent with
       | inl name =>
           match find (fun link => strictEq (link_name link) name) appLinks with
           | Some link =>
               Some {| seg_id := name; seg_name := name;
                       seg_component := link_component link;
                       seg_data := None; seg_navId := None;
                       seg_defaultHistory := None |}
           | None => None
           end
       | inr page => Some (pageSegment page None)
       end;
     prepareExternalUrl := fun url => 35%N :: url |}.

(** The root nav shows the home page; inside it a tabs container, whose
    settings tab shows the list. *)
Definition rootNode : @NavNode Page Params :=
  mkNode true (Some (viewOf HomePage "home")) None None.

Definition tabsNode : @NavNode Page Params :=
  mkNode false None None (Some rootNode).

Definition settingsNode : @NavNode Page Params :=
  mkNode true (Some (viewOf ListPage "list")) (Some settingsTab) (Some tabsNode).

(** * Properties *)

(** ** The definitions at work *)

Example normalizeUrl_padded :
  normalizeUrl (js "   /hello/world/   ") = js "/hello/world".
Proof. reflexivity. Qed.

Example normalizeUrl_blank : normalizeUrl (js "    ") = js "/".
Proof. reflexivity. Qed.

Example indexMatch_examples :
  indexMatch (js "tab-0") = Some (js "0") /\
  indexMatch (js "my-tab-12x-tab-3") = Some (js "12") /\
  indexMatch (js "tab-x") = None /\
  indexMatch (js "settings") = None /\
  parseInt (js "12") = 12%N /\ parseInt (js "007") = 7%N.
Proof. repeat split. Qed.

(** The browser is at [/list] when the linker starts. *)
Example init_seeds_history :
  init (appLinker [] None)
  = (appLinker [js "/list"] None, [serializerParse (js "/list")]).
Proof. reflexivity. Qed.

(** The location changes to the detail page: the url is recorded, the
    path parsed, and the root controller, which shows the list, is told
    to push the detail view without animation and without a url update;
    the segment now belongs to that controller. *)
Example urlChange_deep_link :
  _urlChange (js "/detail/42")
    (withRoot (appLinker [js "/list"] None) (stackNav [viewOf ListPage "list"]))
  = (withRoot
       (setSegments (appLinker [js "/list"; js "/detail/42"] None)
                    [setNavId detailSegment (js "n0")])
       (stackNav [viewOf ListPage "list"]),
     [serializerParse (js "/detail/42");
      onNav (js "n0")
        (push (Some DetailPage) (Some [(js "id", js "42")])
              (pushOptions (js "detail/42")))]).
Proof. reflexivity. Qed.

(** A change to the root path with no index alias known resets the root
    controller and parses nothing. *)
Example urlChange_to_root :
  _urlChange (js "/")
    (withRoot (appLinker [js "/list"] None) (stackNav [viewOf ListPage "list"]))
  = (withRoot (appLinker [js "/list"; js "/"] None)
              (stackNav [viewOf ListPage "list"]),
     [onNav (js "n0") (goToRoot goToRootOptions)]).
Proof. reflexivity. Qed.

(** A controller whose parent owns the first segment is attributed the
    segment after it; a controller whose parent owns none gets none. *)
Example initNav_child :
  initNav (mkNav (js "n1") (Some (js "n0")) (NavStack []) None)
          (linkerAt [setNavId (selectorSegment (js "home")) (js "n0");
                     detailSegment])
  = (Some (setNavId detailSegment (js "n1")),
     linkerAt [setNavId (selectorSegment (js "home")) (js "n0");
               setNavId detailSegment (js "n1")]) /\
  fst (initNav (mkNav (js "n1") (Some (js "n7")) (NavStack []) None)
               (linkerAt [setNavId (selectorSegment (js "home")) (js "n0");
                          detailSegment]))
  = None.
Proof. split; reflexivity. Qed.

(** The walk continues below a tabs container: the container selects
    its tab, and the active tab, which shows nothing yet, is told to
    push the detail view. *)
Example loadNavFromPath_through_tabs :
  snd (_loadNavFromPath
         (mkNav (js "t0") None (TabsGroup [homeTab; settingsTab])
                (Some (mkNav (js "t0-1") (Some (js "t0")) (NavStack []) None)))
         (linkerAt [selectorSegment (js "settings"); detailSegment]))
  = [onNav (js "t0") (select 1 reconcileOptions);
     onNav (js "t0-1")
       (push (Some DetailPage) (Some [(js "id", js "42")])
             (pushOptions (js "detail/42")))].
Proof. reflexivity. Qed.

(** ** Strings *)

Lemma strictEq_true_iff (a b : jsstring) : strictEq a b = true <-> a = b.
Proof.
  revert b; induction a as [|x a IH]; intros [|y b]; simpl; split;
    try discriminate; try reflexivity.
  - intros H. apply andb_true_iff in H as [Hx Hab].
    apply N.eqb_eq in Hx. apply IH in Hab. now subst.
  - intros H. injection H as -> ->.
    apply andb_true_iff. split; [apply N.eqb_refl | now apply IH].
Qed.

Lemma strictEq_refl (a : jsstring) : strictEq a a = true.
Proof. now apply strictEq_true_iff. Qed.

Lemma strictEq_false_iff (a b : jsstring) : strictEq a b = false <-> a <> b.
Proof.
  rewrite <- strictEq_true_iff. destruct (strictEq a b); split; congruence.
Qed.

Lemma len_snoc {A : Type} (l : list A) (x : A) : len (l ++ [x]) = (len l + 1)%Z.
Proof. unfold len. rewrite length_app. simpl. lia. Qed.

Lemma len_nonneg {A : Type} (l : list A) : (0 <= len l)%Z.
Proof. unfold len. lia. Qed.

(** The entry at [length - 1] is the last one. *)
Lemma index_top {A : Type} (l : list A) (x : A) :
  index (l ++ [x]) (len (l ++ [x]) - 1) = Some x.
Proof.
  unfold index. rewrite len_snoc.
  pose proof (len_nonneg l) as Hl.
  destruct (Z.ltb_spec (len l + 1 - 1) 0) as [Hneg|_]; [lia|].
  replace (Z.to_nat (len l + 1 - 1)) with (List.length l)
    by (unfold len; lia).
  now rewrite nth_error_app2, Nat.sub_diag by lia.
Qed.

Lemma index_empty {A : Type} (i : Z) : index (@nil A) i = None.
Proof.
  unfold index. destruct (i <? 0)%Z; [reflexivity|].
  now destruct (Z.to_nat i).
Qed.

Lemma charAt_top (s : jsstring) (c : N) :
  charAt (s ++ [c]) (len (s ++ [c]) - 1) = [c].
Proof. unfold charAt. now rewrite index_top. Qed.

Lemma substr_init (s : jsstring) (c : N) :
  substr (s ++ [c]) 0 (len (s ++ [c]) - 1) = s.
Proof.
  unfold substr. simpl. rewrite len_snoc.
  replace (Z.to_nat (len s + 1 - 1)) with (List.length s)
    by (unfold len; lia).
  rewrite firstn_app, Nat.sub_diag, firstn_all. simpl. apply app_nil_r.
Qed.

(** ** Trimming *)

Lemma trimStart_head (s t : jsstring) (c : N) :
  trimStart s = c :: t -> isWhiteSpace c = false.
Proof.
  induction s as [|x s IH]; simpl; [discriminate|].
  destruct (isWhiteSpace x) eqn:Hx; [exact IH|].
  intros H. injection H as -> _. exact Hx.
Qed.

Lemma trimEnd_last (s t : jsstring) (c : N) :
  trimEnd s = t ++ [c] -> isWhiteSpace c = false.
Proof.
  unfold trimEnd. intros H.
  apply (f_equal (@rev N)) in H. rewrite rev_involutive, rev_unit in H.
  now apply trimStart_head in H.
Qed.

Lemma trim_last (s t : jsstring) (c : N) :
  trim s = t ++ [c] -> isWhiteSpace c = false.
Proof. apply trimEnd_last. Qed.

Lemma trimEnd_fixed (s : jsstring) (c : N) :
  isWhiteSpace c = false -> trimEnd (s ++ [c]) = s ++ [c].
Proof.
  intros Hc. unfold trimEnd. rewrite rev_unit. simpl. rewrite Hc.
  simpl. now rewrite rev_involutive.
Qed.

(** A string with no white space at either end is left alone. *)
Lemma trim_fixed (x c : N) (s t : jsstring) :
  x :: s = t ++ [c] ->
  isWhiteSpace x = false -> isWhiteSpace c = false ->
  trim (x :: s) = x :: s.
Proof.
  intros Hs Hx Hc. unfold trim. simpl. rewrite Hx, Hs.
  now apply trimEnd_fixed.
Qed.

(** ** URL normalisation *)

Lemma normalizeUrl_lead (u : jsstring) :
  normalizeUrl u =
  let p := leadSlash (trim u) in
  if (1 <? len p)%Z && strictEq (charAt p (len p - 1)) (js "/")
  then substr p 0 (len p - 1) else p.
Proof.
  unfold normalizeUrl. cbv zeta.
  assert (Hp : (if negb (strictEq (charAt (trim u) 0) (js "/"))
                then js "/" ++ trim u else trim u) = leadSlash (trim u)).
  { destruct (trim u) as [|c t]; [reflexivity|].
    unfold charAt, index. simpl. rewrite andb_true_r.
    now destruct (c =? 47)%N. }
  now rewrite Hp.
Qed.

Lemma leadSlash_head (t : jsstring) : exists s, leadSlash t = 47%N :: s.
Proof.
  destruct t as [|c t]; simpl; [now exists []|].
  destruct (N.eqb_spec c 47) as [->|_]; eauto.
Qed.

Lemma leadSlash_fixed (s : jsstring) : leadSlash (47%N :: s) = 47%N :: s.
Proof. reflexivity. Qed.

(** A result that is the root, or ends in neither a slash nor white
    space, is a fixed point. *)
Lemma normalizeUrl_fixed (r : jsstring) :
  r = js "/" \/
  (exists s t c, r = 47%N :: s /\ r = t ++ [c] /\ c <> 47%N /\ isWhiteSpace c = false) ->
  normalizeUrl r = r.
Proof.
  intros [->|(s & t & c & Hs & Ht & Hc & Hw)]; [reflexivity|].
  assert (Htrim : trim (47%N :: s) = 47%N :: s).
  { apply (trim_fixed 47 c s t); [now rewrite <- Hs | reflexivity | exact Hw]. }
  rewrite normalizeUrl_lead. cbv zeta.
  rewrite Hs, Htrim, leadSlash_fixed, <- Hs, Ht, charAt_top.
  replace (strictEq [c] (js "/")) with false.
  - now rewrite andb_false_r.
  - symmetry. apply strictEq_false_iff. intros H. injection H as ->. now apply Hc.
Qed.

Lemma cons_snoc_inv {A : Type} (a x : A) (l q : list A) :
  a :: l = q ++ [x] ->
  (l = [] /\ q = [] /\ a = x) \/ (exists q', q = a :: q' /\ l = q' ++ [x]).
Proof.
  destruct q as [|b q]; simpl; intros H; injection H as -> ->.
  - now left.
  - right. now exists q.
Qed.

(** What [normalizeUrl] returns: the string with its leading slash,
    less one trailing slash when something is left of it. *)
Lemma normalizeUrl_strip (u q : jsstring) (x : N) :
  leadSlash (trim u) = (x :: q) ++ [47%N] -> normalizeUrl u = x :: q.
Proof.
  intros Hq. rewrite normalizeUrl_lead. cbv zeta.
  rewrite Hq, charAt_top, strictEq_refl, andb_true_r, substr_init.
  destruct (Z.ltb_spec 1 (len ((x :: q) ++ [47%N]))) as [_|H]; [reflexivity|].
  rewrite len_snoc in H. unfold len in H. simpl in H. lia.
Qed.

Lemma normalizeUrl_keep (u q : jsstring) (x : N) :
  leadSlash (trim u) = q ++ [x] -> x <> 47%N -> normalizeUrl u = q ++ [x].
Proof.
  intros Hq Hx. rewrite normalizeUrl_lead. cbv zeta.
  rewrite Hq, charAt_top.
  replace (strictEq [x] (js "/")) with false; [now rewrite andb_false_r|].
  symmetry. apply strictEq_false_iff. intros H. now injection H.
Qed.

Lemma normalizeUrl_root (u : jsstring) :
  leadSlash (trim u) = [47%N] -> normalizeUrl u = js "/".
Proof. intros Hp. rewrite normalizeUrl_lead. cbv zeta. now rewrite Hp. Qed.

(** The string with its leading slash ends as the trimmed one does. *)
Lemma leadSlash_snoc (t q : jsstring) (x : N) :
  leadSlash t = q ++ [x] ->
  (t = [] /\ q = [] /\ x = 47%N) \/
  (exists q', t = q' ++ [x] /\ (q = q' \/ q = 47%N :: q')).
Proof.
  destruct t as [|c t]; simpl.
  - intros H. apply cons_snoc_inv in H as [(_ & -> & <-)|(q' & _ & H)].
    + now left.
    + now destruct q'.
  - destruct (c =? 47)%N; intros H.
    + right. exists q. split; [exact H | now left].
    + apply cons_snoc_inv in H as [(H & _)|(q' & -> & H)]; [discriminate|].
      right. exists q'. split; [exact H | now right].
Qed.

Lemma normalizeUrl_result (u : jsstring) :
  (forall s c, trim u = s ++ [c; 47%N] -> c <> 47%N /\ isWhiteSpace c = false) ->
  normalizeUrl u = js "/" \/
  (exists s t c, normalizeUrl u = 47%N :: s /\ normalizeUrl u = t ++ [c] /\
                 c <> 47%N /\ isWhiteSpace c = false).
Proof.
  intros Hu.
  destruct (leadSlash_head (trim u)) as [s0 Hhead].
  destruct (leadSlash (trim u)) as [|x p _] eqn:Hp using rev_ind;
    [discriminate|].
  destruct (N.eq_dec x 47) as [->|Hx].
  - (* the string ends in a slash *)
    destruct p as [|y p]; [left; now apply normalizeUrl_root|].
    right. rewrite (normalizeUrl_strip u p y Hp).
    simpl in Hhead. injection Hhead as -> _.
    destruct (leadSlash_snoc _ _ _ Hp) as [(_ & H & _)|(q' & Ht & Hq)];
      [discriminate|].
    (* the unit before the final slash *)
    assert (Hlast : exists t c, 47%N :: p = t ++ [c] /\
                                 exists s, trim u = s ++ [c; 47%N]).
    { destruct (47%N :: p) as [|c t _] eqn:E using rev_ind; [discriminate|].
      exists t, c. split; [reflexivity|].
      destruct Hq as [<-|Hq].
      - exists t. rewrite Ht, <- app_assoc. reflexivity.
      - destruct t as [|z t].
        + simpl in Hq. injection Hq as -> <-. simpl in Ht.
          destruct (trim u) as [|w [|w' tu]] eqn:Etu; try discriminate.
          injection Ht as ->. simpl in Hp. discriminate.
        + simpl in Hq. injection Hq as -> <-.
          exists t. rewrite Ht, <- app_assoc. reflexivity. }
    destruct Hlast as (t & c & Et & s & Es).
    destruct (Hu s c Es) as [Hc Hw].
    exists p, t, c. now rewrite Et.
  - (* it does not *)
    right. rewrite (normalizeUrl_keep u p x Hp Hx).
    destruct (leadSlash_snoc _ _ _ Hp) as [(_ & _ & H)|(q' & Ht & _)];
      [contradiction|].
    exists s0, p, x. repeat split; try assumption.
    now apply (trim_last u q').
Qed.

Lemma snoc2_inj {A : Type} (l l' : list A) (a b a' b' : A) :
  l ++ [a; b] = l' ++ [a'; b'] -> a = a' /\ b = b'.
Proof.
  change (l ++ [a; b]) with (l ++ [a] ++ [b]).
  change (l' ++ [a'; b']) with (l' ++ [a'] ++ [b']).
  rewrite !app_assoc. intros H.
  apply app_inj_tail in H as [H ->]. apply app_inj_tail in H as [_ ->].
  now split.
Qed.

(** C3, where the code departs from the claim: of two trailing slashes
    only one is stripped.  The result of [a//] still ends in a slash,
    which the comment in the function says it makes sure of not
    happening, and a second pass changes the result again. *)
Lemma normalizeUrl_not_idempotent :
  normalizeUrl (js "a//") = js "/a/" /\
  normalizeUrl (normalizeUrl (js "a//")) = js "/a" /\
  normalizeUrl (normalizeUrl (js "a//")) <> normalizeUrl (js "a//").
Proof. repeat split. vm_compute. discriminate. Qed.

(** White space before the final slash has the same effect: the first
    pass uncovers it and the second trims it. *)
Example normalizeUrl_uncovers_space :
  normalizeUrl (js "/ /") = js "/ " /\
  normalizeUrl (normalizeUrl (js "/ /")) = js "/".
Proof. split; reflexivity. Qed.

(** The rest of what is said of normalisation holds:
    [normalizeUrl("")] is ["/"], [normalizeUrl("/a/")] is ["/a"],
    [normalizeUrl("a")] is ["/a"]; and a second pass changes nothing
    whenever the trimmed form does not end in a slash that directly
    follows another slash or white space (the fixed points themselves
    are characterised further down). *)
Theorem normalizeUrl_idempotent_single_slash :
  normalizeUrl (js "") = js "/" /\
  normalizeUrl (js "/a/") = js "/a" /\
  normalizeUrl (js "a") = js "/a" /\
  forall u : jsstring,
    (forall s c, trim u = s ++ [c; 47%N] ->
                 c <> 47%N /\ isWhiteSpace c = false) ->
    normalizeUrl (normalizeUrl u) = normalizeUrl u.
Proof.
  repeat split.
  intros u Hu. apply normalizeUrl_fixed. now apply normalizeUrl_result.
Qed.

Lemma normalizeUrl_idempotent_single_slash_witness :
  normalizeUrl (normalizeUrl (js "   /hello/world/   "))
  = normalizeUrl (js "   /hello/world/   ").
Proof.
  apply normalizeUrl_idempotent_single_slash.
  intros s c H.
  change (trim (js "   /hello/world/   "))
    with (js "/hello/worl" ++ [100%N; 47%N]) in H.
  apply snoc2_inj in H as [<- _].
  split; [discriminate | reflexivity].
Defined.

(** ** History tracker *)

Section HistoryProperties.

Context {Component Data : Type}.
Implicit Types d : @DeepLinker Component Data.
Implicit Types u url : jsstring.

Lemma index_previous {A : Type} (l : list A) (x y : A) :
  index (l ++ [x; y]) (len (l ++ [x; y]) - 2) = Some x.
Proof.
  unfold index, len. rewrite length_app. simpl.
  destruct (Z.ltb_spec (Z.of_nat (List.length l + 2) - 2) 0) as [H|_]; [lia|].
  replace (Z.to_nat (Z.of_nat (List.length l + 2) - 2)) with (List.length l)
    by lia.
  now rewrite nth_error_app2, Nat.sub_diag by lia.
Qed.

(** [_isCurrentUrl]: the url is the most recent entry. *)
Lemma _isCurrentUrl_true d u :
  _isCurrentUrl d u = true <-> exists pre, _history d = pre ++ [u].
Proof.
  unfold _isCurrentUrl.
  destruct (_history d) as [|x h _] using rev_ind.
  - rewrite index_empty. simpl. split; [discriminate|].
    intros [pre H]. now destruct pre.
  - rewrite index_top. simpl. rewrite strictEq_true_iff. split.
    + intros ->. now exists h.
    + intros [pre H]. now apply app_inj_tail in H as [_ ->].
Qed.

Lemma _isCurrentUrl_false d u :
  _isCurrentUrl d u = false <-> forall pre, _history d <> pre ++ [u].
Proof.
  split.
  - intros H pre Hpre.
    assert (Ht : _isCurrentUrl d u = true) by (apply _isCurrentUrl_true; eauto).
    congruence.
  - intros H. destruct (_isCurrentUrl d u) eqn:E; [|reflexivity].
    apply _isCurrentUrl_true in E as [pre E]. now destruct (H pre).
Qed.

(** [_isBackUrl]: the url is the entry just below the most recent. *)
Lemma _isBackUrl_true d u :
  _isBackUrl d u = true <-> exists pre t, _history d = pre ++ [u; t].
Proof.
  unfold _isBackUrl.
  destruct (_history d) as [|t h _] using rev_ind.
  - rewrite index_empty. simpl. split; [discriminate|].
    intros (pre & t & H). now destruct pre.
  - destruct h as [|x h _] using rev_ind.
    + simpl. split; [discriminate|].
      intros (pre & t' & H). destruct pre as [|? [|? ?]]; discriminate.
    + rewrite <- app_assoc. simpl. rewrite index_previous. simpl.
      rewrite strictEq_true_iff. split.
      * intros ->. now exists h, t.
      * intros (pre & t' & H). now apply snoc2_inj in H as [-> _].
Qed.

Lemma _isBackUrl_false d u :
  _isBackUrl d u = false <-> forall pre t, _history d <> pre ++ [u; t].
Proof.
  split.
  - intros H pre t Hpre.
    assert (Ht : _isBackUrl d u = true) by (apply _isBackUrl_true; eauto).
    congruence.
  - intros H. destruct (_isBackUrl d u) eqn:E; [|reflexivity].
    apply _isBackUrl_true in E as (pre & t & E). now destruct (H pre t).
Qed.

Lemma _history_push d u :
  _history (_historyPush u d) =
  if _isCurrentUrl d u then _history d
  else if (30 <? len (_history d ++ [u]))%Z
       then tl (_history d ++ [u])
       else _history d ++ [u].
Proof.
  unfold _historyPush. destruct (_isCurrentUrl d u); simpl; [reflexivity|].
  now destruct (30 <? len (_history d ++ [u]))%Z.
Qed.

Lemma _history_pop d :
  _history (_historyPop d) =
  match removelast (_history d) with
  | [] => [path (_location d)]
  | h => h
  end.
Proof.
  unfold _historyPop. cbv zeta. simpl.
  destruct (removelast (_history d)) as [|x h] eqn:E.
  - reflexivity.
  - unfold len. simpl.
    now destruct (Z.eqb_spec (Z.pos (Pos.of_succ_nat (List.length h))) 0).
Qed.

Lemma _historyPop_fields d :
  _historyPop d = setHistory d (_history (_historyPop d)).
Proof.
  unfold _historyPop. cbv zeta.
  destruct (len (_history (setHistory d (removelast (_history d)))) =? 0)%Z;
    [|reflexivity].
  unfold _historyPush.
  destruct (negb (_isCurrentUrl _ _)); [|reflexivity].
  cbv zeta. now destruct (30 <? len _)%Z.
Qed.

Lemma _historyPush_within d u :
  (List.length (_history d) <= 30)%nat ->
  (List.length (_history (_historyPush u d)) <= 30)%nat.
Proof.
  intros Hlen. rewrite _history_push. destruct (_isCurrentUrl d u); [exact Hlen|].
  unfold len. rewrite length_app. simpl.
  destruct (Z.ltb_spec 30 (Z.of_nat (List.length (_history d) + 1))) as [H|H].
  - destruct (_history d); simpl in *; rewrite ?length_app; simpl; lia.
  - rewrite length_app. simpl. lia.
Qed.

(** C8: on a history of at most 30 entries [_historyPush] leaves at most
    30 entries; a url equal to the top entry leaves the linker as it
    is; any other url is appended, and the oldest entry is dropped when
    that makes 31. *)
Theorem _historyPush_bounded d u :
  (List.length (_history d) <= 30)%nat ->
  (List.length (_history (_historyPush u d)) <= 30)%nat /\
  (forall pre, _history d = pre ++ [u] -> _historyPush u d = d) /\
  ((forall pre, _history d <> pre ++ [u]) ->
   ((List.length (_history d) < 30)%nat ->
    _history (_historyPush u d) = _history d ++ [u]) /\
   (forall oldest rest, _history d = oldest :: rest ->
    List.length (_history d) = 30%nat ->
    _history (_historyPush u d) = rest ++ [u])).
Proof.
  intros Hlen. split; [|split].
  - now apply _historyPush_within.
  - intros pre Hpre. unfold _historyPush.
    replace (_isCurrentUrl d u) with true; [reflexivity|].
    symmetry. apply _isCurrentUrl_true. eauto.
  - intros Hnot. apply _isCurrentUrl_false in Hnot.
    rewrite _history_push, Hnot. unfold len. rewrite length_app. simpl. split.
    + intros Hlt.
      destruct (Z.ltb_spec 30 (Z.of_nat (List.length (_history d) + 1)));
        [lia | reflexivity].
    + intros oldest rest Hh H30.
      destruct (Z.ltb_spec 30 (Z.of_nat (List.length (_history d) + 1)));
        [|lia].
      now rewrite Hh.
Qed.

(** C9: [_historyPop] removes the top entry; a buffer that is empty
    afterwards holds the present [location.path()] instead, so the
    buffer is never empty after a pop. *)
Theorem _historyPop_reseeds d :
  (forall pre below t, _history d = (pre ++ [below]) ++ [t] ->
                       _history (_historyPop d) = pre ++ [below]) /\
  (forall t, _history d = [t] ->
             _history (_historyPop d) = [path (_location d)]) /\
  (_history d = [] -> _history (_historyPop d) = [path (_location d)]) /\
  _history (_historyPop d) <> [].
Proof.
  rewrite _history_pop. repeat split.
  - intros pre below t ->. rewrite removelast_last.
    now destruct (pre ++ [below]) eqn:E; [destruct pre|].
  - now intros t ->.
  - now intros ->.
  - now destruct (removelast (_history d)).
Qed.

End HistoryProperties.

Lemma _historyPush_bounded_witness :
  (List.length (_history (_historyPush (js "/new") (appLinker fullHistory None)))
   <= 30)%nat /\
  _historyPush (js "/b") (appLinker [js "/a"; js "/b"] None)
  = appLinker [js "/a"; js "/b"] None /\
  _history (_historyPush (js "/c") (appLinker [js "/a"; js "/b"] None))
  = [js "/a"; js "/b"; js "/c"] /\
  _history (_historyPush (js "/new") (appLinker fullHistory None))
  = tl fullHistory ++ [js "/new"].
Proof.
  assert (Hfull : (List.length fullHistory <= 30)%nat) by (vm_compute; lia).
  assert (Hshort : (List.length [js "/a"; js "/b"] <= 30)%nat)
    by (simpl; lia).
  assert (Hnew : forall pre,
             _history (appLinker fullHistory None) <> pre ++ [js "/new"]).
  { intros pre H.
    change (_history (appLinker fullHistory None))
      with (removelast fullHistory ++ [47%N :: repeat 112%N 30]) in H.
    apply app_inj_tail in H as [_ H]. discriminate. }
  assert (Hc : forall pre,
             _history (appLinker [js "/a"; js "/b"] None) <> pre ++ [js "/c"]).
  { intros pre H.
    change (_history (appLinker [js "/a"; js "/b"] None))
      with ([js "/a"] ++ [js "/b"]) in H.
    apply app_inj_tail in H as [_ H]. discriminate. }
  pose proof (_historyPush_bounded (appLinker fullHistory None) (js "/new") Hfull)
    as (Hle & _ & Hdrop).
  pose proof (_historyPush_bounded (appLinker [js "/a"; js "/b"] None)
                                   (js "/b") Hshort) as (_ & Htop & _).
  pose proof (_historyPush_bounded (appLinker [js "/a"; js "/b"] None)
                                   (js "/c") Hshort) as (_ & _ & Happend).
  split; [exact Hle | split; [|split]].
  - apply (Htop [js "/a"]). reflexivity.
  - apply (proj1 (Happend Hc)). simpl. lia.
  - apply (proj2 (Hdrop Hnew) (js "/p") (tl fullHistory)); reflexivity.
Defined.

Lemma _historyPop_reseeds_witness :
  _history (_historyPop (appLinker [js "/a"; js "/b"; js "/c"] None))
  = [js "/a"; js "/b"] /\
  _history (_historyPop (appLinker [js "/a"] None)) = [js "/list"] /\
  _history (_historyPop (appLinker [] None)) = [js "/list"].
Proof.
  split; [|split].
  - apply (proj1 (_historyPop_reseeds
                    (appLinker [js "/a"; js "/b"; js "/c"] None))
                 [js "/a"] (js "/b") (js "/c")).
    reflexivity.
  - apply (proj1 (proj2 (_historyPop_reseeds (appLinker [js "/a"] None)))
                 (js "/a")).
    reflexivity.
  - apply (proj1 (proj2 (proj2 (_historyPop_reseeds (appLinker [] None))))).
    reflexivity.
Defined.

(** ** Location changes *)

Section LocationProperties.

Context {Component Data : Type}.
Implicit Types d : @DeepLinker Component Data.
Implicit Types nav : @NavInstance Component Data.
Implicit Types u url : jsstring.

Lemma NavInstance_chain_ind (P : @NavInstance Component Data -> Prop) :
  (forall id parent body, P (mkNav id parent body None)) ->
  (forall id parent body child, P child -> P (mkNav id parent body (Some child))) ->
  forall nav, P nav.
Proof.
  intros Hleaf Hchild. fix IH 1. intros [id parent body [child|]].
  - apply Hchild, IH.
  - apply Hleaf.
Qed.

Lemma setSegments_same d : setSegments d (_segments d) = d.
Proof. now destruct d. Qed.

Lemma setSegments_twice d s s' :
  setSegments (setSegments d s) s' = setSegments d s'.
Proof. reflexivity. Qed.

(** Reconciliation writes to the segments and to nothing else. *)
Lemma initNav_fields nav d :
  snd (initNav nav d) = setSegments d (_segments (snd (initNav nav d))).
Proof.
  unfold initNav. destruct (_segments d) as [|first rest] eqn:E; simpl.
  - now rewrite setSegments_same.
  - destruct (nav_parent nav) as [parentId|]; simpl; [|reflexivity].
    destruct (initNavLoop _ _ _ _) as [[found rest']|]; simpl; [reflexivity|].
    now rewrite setSegments_same.
Qed.

Lemma _loadViewFromSegment_fields nav d :
  fst (_loadViewFromSegment nav d)
  = setSegments d (_segments (fst (_loadViewFromSegment nav d))).
Proof.
  unfold _loadViewFromSegment.
  pose proof (initNav_fields nav d) as H.
  destruct (initNav nav d) as [[segment|] d']; simpl in *; [|exact H].
  destruct (nav_body nav); [|exact H].
  now destruct (walkBackwards _ _ _ _).
Qed.

Lemma _loadNavFromPath_fields nav d :
  fst (_loadNavFromPath nav d)
  = setSegments d (_segments (fst (_loadNavFromPath nav d))).
Proof.
  revert d. induction nav as [id parent body|id parent body child IH]
    using NavInstance_chain_ind; intros d; simpl.
  - pose proof (_loadViewFromSegment_fields (mkNav id parent body None) d) as H.
    now destruct (_loadViewFromSegment _ d) as [d1 effects].
  - pose proof (_loadViewFromSegment_fields
                  (mkNav id parent body (Some child)) d) as H.
    destruct (_loadViewFromSegment _ d) as [d1 effects]. simpl in H.
    specialize (IH d1). destruct (_loadNavFromPath child d1) as [d2 effects'].
    simpl in *. rewrite IH, H. reflexivity.
Qed.

Lemma _loadNavFromPath_history nav d :
  _history (fst (_loadNavFromPath nav d)) = _history d.
Proof. now rewrite _loadNavFromPath_fields. Qed.

(** Whatever else a location change does, the history is settled by
    the first step. *)
Lemma _urlChange_history d u :
  _isCurrentUrl d u = false ->
  _history (fst (_urlChange u d))
  = _history (if _isBackUrl d u then _historyPop d else _historyPush u d).
Proof.
  intros Hcur. unfold _urlChange. rewrite Hcur. simpl.
  set (d1 := if _isBackUrl d u then _historyPop d else _historyPush u d).
  destruct (getRootNav (_app d1)) as [root|]; [|reflexivity].
  assert (Hload : forall url',
    _history (fst (let (d2, effects) :=
                     _loadNavFromPath root
                       (setSegments d1 (parse (_serializer d1) url')) in
                   (d2, serializerParse url' :: effects))) = _history d1).
  { intros url'.
    pose proof (_loadNavFromPath_history root
                  (setSegments d1 (parse (_serializer d1) url'))) as H.
    now destruct (_loadNavFromPath root _). }
  destruct (strictEq u (js "/")); [|apply Hload].
  destruct (_indexAliasUrl d1); [apply Hload | reflexivity].
Qed.

(** C2: a url equal to the top of the history changes nothing at all;
    a url equal to the entry below the top pops the history; any other
    url is pushed (appended, the oldest entry dropped past 30). *)
Theorem _urlChange_classifies d u :
  (forall pre, _history d = pre ++ [u] -> _urlChange u d = (d, [])) /\
  (forall pre top, _history d = pre ++ [u; top] -> top <> u ->
     _history (fst (_urlChange u d)) = pre ++ [u]) /\
  ((forall pre, _history d <> pre ++ [u]) ->
   (forall pre top, _history d <> pre ++ [u; top]) ->
     _history (fst (_urlChange u d))
     = if (30 <? len (_history d ++ [u]))%Z
       then tl (_history d ++ [u])
       else _history d ++ [u]).
Proof.
  split; [|split].
  - intros pre Hpre. unfold _urlChange.
    replace (_isCurrentUrl d u) with true; [reflexivity|].
    symmetry. apply _isCurrentUrl_true. eauto.
  - intros pre top Hpre Hneq.
    assert (Hcur : _isCurrentUrl d u = false).
    { apply _isCurrentUrl_false. intros pre' H. rewrite Hpre in H.
      change (pre ++ [u; top]) with (pre ++ [u] ++ [top]) in H.
      rewrite app_assoc in H. apply app_inj_tail in H as [_ H].
      now apply Hneq. }
    assert (Hback : _isBackUrl d u = true)
      by (apply _isBackUrl_true; eauto).
    rewrite (_urlChange_history d u Hcur), Hback, _history_pop, Hpre.
    change (pre ++ [u; top]) with (pre ++ [u] ++ [top]).
    rewrite app_assoc, removelast_last.
    now destruct (pre ++ [u]) eqn:E; [destruct pre|].
  - intros Hcur Hback.
    apply _isCurrentUrl_false in Hcur. apply _isBackUrl_false in Hback.
    now rewrite (_urlChange_history d u Hcur), Hback, _history_push, Hcur.
Qed.

(** C4 (amended): when the direction is "back" and the url, with the
    index alias already replaced by the root path, equals the entry
    below the top of the history, [_updateLocation] pops the history
    and calls [location.back()], and does nothing else: no entry is
    pushed and [location.go] is not called. *)
Theorem _updateLocation_back d url url' pre top :
  url' = (if strictEqOpt (_indexAliasUrl d) url then js "/" else url) ->
  _history d = pre ++ [url'; top] ->
  _updateLocation url DIRECTION_BACK d
  = (setHistory d (pre ++ [url']), [locationBack]).
Proof.
  intros Hurl Hpre. unfold _updateLocation. rewrite <- Hurl.
  replace (_isBackUrl d url') with true
    by (symmetry; apply _isBackUrl_true; eauto).
  rewrite strictEq_refl. simpl.
  rewrite _historyPop_fields, _history_pop, Hpre.
  change (pre ++ [url'; top]) with (pre ++ [url'] ++ [top]).
  rewrite app_assoc, removelast_last.
  now destruct (pre ++ [url']) eqn:E; [destruct pre|].
Qed.

End LocationProperties.

Lemma _urlChange_classifies_witness :
  _urlChange (js "/b") (appLinker [js "/a"; js "/b"] None)
  = (appLinker [js "/a"; js "/b"] None, []) /\
  _history (fst (_urlChange (js "/a") (appLinker [js "/a"; js "/b"] None)))
  = [js "/a"] /\
  _history (fst (_urlChange (js "/c") (appLinker [js "/a"; js "/b"] None)))
  = [js "/a"; js "/b"; js "/c"].
Proof.
  pose proof (_urlChange_classifies (appLinker [js "/a"; js "/b"] None) (js "/b"))
    as (Hsame & _ & _).
  pose proof (_urlChange_classifies (appLinker [js "/a"; js "/b"] None) (js "/a"))
    as (_ & Hback & _).
  pose proof (_urlChange_classifies (appLinker [js "/a"; js "/b"] None) (js "/c"))
    as (_ & _ & Hnew).
  split; [|split].
  - apply (Hsame [js "/a"]). reflexivity.
  - apply (Hback [] (js "/b")); [reflexivity | discriminate].
  - apply Hnew.
    + intros pre H.
      change (_history (appLinker [js "/a"; js "/b"] None))
        with ([js "/a"] ++ [js "/b"]) in H.
      apply app_inj_tail in H as [_ H]. discriminate.
    + intros pre top H.
      change (_history (appLinker [js "/a"; js "/b"] None))
        with ([] ++ [js "/a"; js "/b"]) in H.
      apply snoc2_inj in H as [H _]. discriminate.
Defined.

(** C4, the claim as stated fails: the url computed for the settled
    navigation equals the entry below the top, yet it is the index
    alias, so it is replaced by the root path first; the root path is
    not the previous entry, and the linker pushes it and calls
    [location.go] instead of going back. *)
Lemma _updateLocation_alias_goes_forward :
  index (_history aliasLinker) (len (_history aliasLinker) - 2)
  = Some (js "/home") /\
  _updateLocation (js "/home") DIRECTION_BACK aliasLinker
  = (setHistory aliasLinker [js "/home"; js "/detail/42"; js "/"],
     [locationGo (js "/")]).
Proof. split; reflexivity. Qed.

Lemma _updateLocation_back_witness :
  _updateLocation (js "/list") DIRECTION_BACK
    (appLinker [js "/list"; js "/list/detail/12"] (Some (js "/home")))
  = (setHistory
       (appLinker [js "/list"; js "/list/detail/12"] (Some (js "/home")))
       [js "/list"],
     [locationBack]).
Proof.
  apply (_updateLocation_back
           (appLinker [js "/list"; js "/list/detail/12"] (Some (js "/home")))
           (js "/list") (js "/list") [] (js "/list/detail/12"));
    reflexivity.
Defined.

(** ** The bound as an invariant

    Every operation of the linker that touches the history keeps it
    within 30 entries. *)

Section HistoryInvariant.

Context {Component Data : Type}.
Implicit Types d : @DeepLinker Component Data.

Lemma _historyPush_keeps_bound d url :
  historyBounded d -> historyBounded (_historyPush url d).
Proof. intros H. now apply _historyPush_within. Qed.

Lemma _historyPop_keeps_bound d :
  historyBounded d -> historyBounded (_historyPop d).
Proof.
  unfold historyBounded. intros H. rewrite _history_pop.
  destruct (removelast (_history d)) as [|x h] eqn:E; [simpl; lia|].
  rewrite <- E, removelast_firstn_len, length_firstn. lia.
Qed.

Lemma _urlChange_keeps_bound d url :
  historyBounded d -> historyBounded (fst (_urlChange url d)).
Proof.
  intros H. destruct (_isCurrentUrl d url) eqn:Hcur.
  - unfold _urlChange. now rewrite Hcur.
  - unfold historyBounded. rewrite (_urlChange_history d url Hcur).
    destruct (_isBackUrl d url);
      [now apply _historyPop_keeps_bound | now apply _historyPush_keeps_bound].
Qed.

Lemma _updateLocation_keeps_bound d url direction :
  historyBounded d -> historyBounded (fst (_updateLocation url direction d)).
Proof.
  intros H. unfold _updateLocation. cbv zeta.
  destruct (strictEq direction DIRECTION_BACK && _isBackUrl d _); simpl.
  - now apply _historyPop_keeps_bound.
  - destruct (negb (_isCurrentUrl d _)); simpl;
      [now apply _historyPush_keeps_bound | exact H].
Qed.

Lemma init_keeps_bound d :
  historyBounded d -> historyBounded (fst (init d)).
Proof.
  intros H. unfold init. cbv zeta. simpl.
  now apply _historyPush_keeps_bound.
Qed.

End HistoryInvariant.

(** ** Tab selection *)

Lemma stripPrefix_Some (p s r : jsstring) :
  stripPrefix p s = Some r <-> s = p ++ r.
Proof.
  revert s; induction p as [|x p IH]; intros s; simpl.
  - split; [now intros [= ->] | now intros ->].
  - destruct s as [|y s]; [split; discriminate|].
    destruct (N.eqb_spec x y) as [->|Hxy].
    + rewrite IH. split; [now intros -> | now intros [= ->]].
    + split; [discriminate | intros [= -> _]; now destruct Hxy].
Qed.

Lemma takeDigits_allDigits (s : jsstring) : allDigits (takeDigits s).
Proof.
  induction s as [|c s IH]; simpl; [constructor|].
  destruct (isDigit c) eqn:Hc; now constructor.
Qed.

(** The run of digits stops at the end or at a unit that is no digit. *)
Lemma takeDigits_split (s : jsstring) :
  exists rest, s = takeDigits s ++ rest /\
               forall c r, rest = c :: r -> isDigit c = false.
Proof.
  induction s as [|c s (rest & Hs & Hstop)]; simpl.
  - exists []. split; [reflexivity | discriminate].
  - destruct (isDigit c) eqn:Hc.
    + exists rest. split; [simpl; now f_equal | exact Hstop].
    + exists (c :: s). split; [reflexivity | now intros c' r [= <- _]].
Qed.

Lemma takeDigits_nonempty (digits rest : jsstring) :
  digits <> [] -> allDigits digits -> takeDigits (digits ++ rest) <> [].
Proof.
  intros Hne Hall. destruct digits as [|c digits]; [contradiction|].
  inversion Hall as [|? ? Hc _]; subst. simpl. now rewrite Hc.
Qed.

Lemma matchHere_Some (s digits : jsstring) :
  matchHere s = Some digits ->
  exists rest, s = js "tab-" ++ digits ++ rest /\
               digits <> [] /\ allDigits digits /\
               forall c r, rest = c :: r -> isDigit c = false.
Proof.
  unfold matchHere.
  destruct (stripPrefix (js "tab-") s) as [tail|] eqn:Hp; [|discriminate].
  apply stripPrefix_Some in Hp.
  destruct (takeDigits_split tail) as (rest & Htail & Hstop).
  pose proof (takeDigits_allDigits tail) as Hall.
  destruct (takeDigits tail) as [|c ds] eqn:Hd; [discriminate|].
  intros [= <-]. exists rest. rewrite Hp, Htail. now repeat split.
Qed.

Lemma matchHere_None (s digits rest : jsstring) :
  matchHere s = None ->
  s = js "tab-" ++ digits ++ rest -> digits <> [] -> allDigits digits -> False.
Proof.
  unfold matchHere. intros Hm Hs Hne Hall.
  apply stripPrefix_Some in Hs. rewrite Hs in Hm.
  pose proof (takeDigits_nonempty digits rest Hne Hall) as Hd.
  now destruct (takeDigits (digits ++ rest)).
Qed.

Lemma indexMatch_step (s : jsstring) :
  indexMatch s =
  match matchHere s with
  | Some digits => Some digits
  | None => match s with [] => None | _ :: rest => indexMatch rest end
  end.
Proof. now destruct s. Qed.

(** [indexMatch] captures the full digit run of the leftmost
    occurrence of [tab-] followed by a digit. *)
Lemma indexMatch_Some (s digits : jsstring) :
  indexMatch s = Some digits ->
  exists pre rest,
    s = pre ++ js "tab-" ++ digits ++ rest /\
    digits <> [] /\ allDigits digits /\
    (forall c r, rest = c :: r -> isDigit c = false) /\
    (forall pre' digits' rest',
        s = pre' ++ js "tab-" ++ digits' ++ rest' ->
        digits' <> [] -> allDigits digits' ->
        (List.length pre <= List.length pre')%nat).
Proof.
  induction s as [|c s IH]; rewrite indexMatch_step.
  - destruct (matchHere []) eqn:Hm; [|discriminate].
    intros [= ->]. apply matchHere_Some in Hm as (rest & Hs & _). discriminate.
  - destruct (matchHere (c :: s)) as [ds|] eqn:Hm.
    + intros [= ->].
      apply matchHere_Some in Hm as (rest & Hs & Hne & Hall & Hstop).
      exists [], rest. repeat split; try assumption. simpl. lia.
    + intros H. destruct (IH H) as (pre & rest & Hs & Hne & Hall & Hstop & Hleft).
      exists (c :: pre), rest.
      split; [simpl; now f_equal|]. repeat split; try assumption.
      intros [|c' pre'] digits' rest' Hs' Hne' Hall'.
      * exfalso. exact (matchHere_None _ _ _ Hm Hs' Hne' Hall').
      * simpl in Hs'. injection Hs' as _ Hs'.
        simpl. apply le_n_S. now apply (Hleft pre' digits' rest').
Qed.

Lemma indexMatch_None (s : jsstring) :
  indexMatch s = None -> ~ containsTabIndex s.
Proof.
  induction s as [|c s IH]; rewrite indexMatch_step.
  - intros _ (pre & digits & rest & Hs & _). now destruct pre.
  - destruct (matchHere (c :: s)) eqn:Hm; [discriminate|].
    intros H ([|c' pre] & digits & rest & Hs & Hne & Hall).
    + exact (matchHere_None _ _ _ Hm Hs Hne Hall).
    + simpl in Hs. injection Hs as _ Hs.
      apply (IH H). now exists pre, digits, rest.
Qed.

Lemma indexMatch_contains (s : jsstring) :
  containsTabIndex s -> exists digits, indexMatch s = Some digits.
Proof.
  intros Hs. destruct (indexMatch s) as [digits|] eqn:E; [eauto|].
  now apply indexMatch_None in E.
Qed.

(** ** Numbers read from a name *)

Lemma mathInt_from (digits : jsstring) (acc : N) :
  fold_left (fun acc c => (acc * 10 + (c - 48))%N) digits acc
  = (acc * 10 ^ N.of_nat (List.length digits) + decimalValue digits)%N.
Proof.
  revert acc. induction digits as [|c digits IH]; intros acc.
  - simpl. lia.
  - change (fold_left (fun acc c => (acc * 10 + (c - 48))%N) (c :: digits) acc)
      with (fold_left (fun acc c => (acc * 10 + (c - 48))%N) digits
                      (acc * 10 + (c - 48))%N).
    rewrite IH.
    change (decimalValue (c :: digits))
      with ((c - 48) * 10 ^ N.of_nat (List.length digits)
            + decimalValue digits)%N.
    replace (N.of_nat (List.length (c :: digits)))
      with (N.succ (N.of_nat (List.length digits))) by (simpl; lia).
    rewrite N.pow_succ_r'. lia.
Qed.

(** Reading digit by digit gives the number the digits write. *)
Lemma mathInt_decimalValue (digits : jsstring) :
  mathInt digits = decimalValue digits.
Proof. unfold mathInt. rewrite mathInt_from. lia. Qed.

(** Below 2^53 a number is held as it is. *)
Lemma toNumber_safe (n : N) : (n < 2 ^ 53)%N -> toNumber n = number n.
Proof.
  intros Hn. unfold toNumber.
  now rewrite (proj2 (N.ltb_lt n (2 ^ 53)) Hn).
Qed.

(** From 2^53 on the number held is a multiple of the weight of the
    last bit kept, and no further from [n] than half that weight: a
    nearest double. *)
Lemma toNumber_nearest (n w : N) :
  (2 ^ 53 <= n)%N -> toNumber n = number w ->
  (w mod 2 ^ (N.log2 n - 52) = 0)%N /\
  (2 * n <= 2 * w + 2 ^ (N.log2 n - 52))%N /\
  (2 * w <= 2 * n + 2 ^ (N.log2 n - 52))%N.
Proof.
  intros Hn. unfold toNumber.
  rewrite (proj2 (N.ltb_ge n (2 ^ 53)) Hn).
  set (ulp := (2 ^ (N.log2 n - 52))%N).
  assert (Hulp : ulp <> 0%N) by (apply N.pow_nonzero; discriminate).
  pose proof (N.div_mod n ulp Hulp) as Hdiv.
  pose proof (N.mod_upper_bound n ulp Hulp) as Hr.
  cbv zeta.
  set (q := (n / ulp)%N) in *. set (r := (n mod ulp)%N) in *.
  clearbody q r ulp. clear Hn.
  destruct ((ulp <? 2 * r)%N || ((2 * r =? ulp)%N && N.odd q)) eqn:Hup;
    (destruct (N.log2 _ <? 1024)%N; [|discriminate]);
    intros Hw; injection Hw as <-;
    (split; [now apply N.Div0.mod_mul|]).
  - apply orb_true_iff in Hup as [Hup|Hup].
    + apply N.ltb_lt in Hup. split; nia.
    + apply andb_true_iff in Hup as [Hup _]. apply N.eqb_eq in Hup.
      split; nia.
  - apply orb_false_iff in Hup as [Hup _]. apply N.ltb_ge in Hup.
    split; nia.
Qed.

Section TabProperties.

Context {Component Data : Type}.
Implicit Types d : @DeepLinker Component Data.
Implicit Types nav : @NavInstance Component Data.

Lemma tabMatches_true d name (t : Tab) :
  tabMatches d name t = true <-> tabNamed d name t.
Proof.
  unfold tabMatches, tabNamed. rewrite orb_true_iff. split.
  - intros [H|H].
    + left. destruct (tabUrlPath t); [|discriminate].
      apply strictEq_true_iff in H. now subst.
    + right. destruct (tabTitle t) as [title|]; [|discriminate].
      apply strictEq_true_iff in H. eauto.
  - intros [H|(title & H & Hf)].
    + left. rewrite H. apply strictEq_refl.
    + right. rewrite H, Hf. apply strictEq_refl.
Qed.

(** [find] answers the first tab that matches. *)
Lemma find_first_tab d name (tabs : list Tab) :
  (forall before tab after,
      tabs = before ++ tab :: after -> tabNamed d name tab ->
      (forall t, In t before -> ~ tabNamed d name t) ->
      find (tabMatches d name) tabs = Some tab) /\
  ((forall t, In t tabs -> ~ tabNamed d name t) ->
   find (tabMatches d name) tabs = None).
Proof.
  split.
  - intros before tab after -> Htab Hbefore.
    induction before as [|t before IH]; simpl.
    + now rewrite (proj2 (tabMatches_true d name tab) Htab).
    + destruct (tabMatches d name t) eqn:Ht.
      * apply tabMatches_true in Ht. destruct (Hbefore t); [now left | exact Ht].
      * apply IH. intros t' Hin. apply Hbefore. now right.
  - intros Hnone. induction tabs as [|t tabs IH]; [reflexivity|]. simpl.
    destruct (tabMatches d name t) eqn:Ht.
    + apply tabMatches_true in Ht. destruct (Hnone t); [now left | exact Ht].
    + apply IH. intros t' Hin. apply Hnone. now right.
Qed.

(** Without a tab index in the name the tabs are searched in order. *)
Lemma getSelectedTabIndex_by_number_free d (tabs : list Tab) name fallback :
  ~ containsTabIndex name ->
  (forall before tab after,
      tabs = before ++ tab :: after -> tabNamed d name tab ->
      (forall t, In t before -> ~ tabNamed d name t) ->
      getSelectedTabIndex d tabs name fallback = tab_index tab) /\
  ((forall t, In t tabs -> ~ tabNamed d name t) ->
   getSelectedTabIndex d tabs name fallback = fallback).
Proof.
  intros Hname. unfold getSelectedTabIndex.
  destruct (indexMatch name) as [digits|] eqn:E.
  - destruct Hname.
    apply indexMatch_Some in E as (pre & rest & Hs & Hne & Hall & _).
    now exists pre, digits, rest.
  - destruct (find_first_tab d name tabs) as [Hfirst Hnone]. split.
    + intros before tab after Htabs Htab Hbefore.
      now rewrite (Hfirst before tab after Htabs Htab Hbefore).
    + intros Hno. now rewrite (Hnone Hno).
Qed.

(** C10 (amended): a name in which [tab-] followed by digits occurs
    anywhere selects by number, whatever the linker, the tabs and the
    fallback are.  The index is the Number value of what the full digit
    run of the leftmost occurrence writes: that very number when it is
    below 2^53, and from there on, when finite, a double no further from
    it than half the weight of its last bit.  The tabs are searched by
    url path and formatted title only for a name with no occurrence:
    the first tab that answers to the name gives its index, and the
    fallback is returned when none does. *)
Theorem getSelectedTabIndex_by_number d (tabs : list Tab) name fallback :
  (containsTabIndex name ->
   exists pre digits rest,
     name = pre ++ js "tab-" ++ digits ++ rest /\
     digits <> [] /\ allDigits digits /\
     (forall c r, rest = c :: r -> isDigit c = false) /\
     (forall pre' digits' rest',
         name = pre' ++ js "tab-" ++ digits' ++ rest' ->
         digits' <> [] -> allDigits digits' ->
         (List.length pre <= List.length pre')%nat) /\
     forall (d' : @DeepLinker Component Data) (tabs' : list Tab) fallback',
       let index := getSelectedTabIndex d' tabs' name fallback' in
       let value := decimalValue digits in
       index = toNumber value /\
       ((value < 2 ^ 53)%N -> index = number value) /\
       (forall w,
           (2 ^ 53 <= value)%N -> index = number w ->
           (w mod 2 ^ (N.log2 value - 52) = 0)%N /\
           (2 * value <= 2 * w + 2 ^ (N.log2 value - 52))%N /\
           (2 * w <= 2 * value + 2 ^ (N.log2 value - 52))%N)) /\
  (~ containsTabIndex name ->
   (forall before tab after,
       tabs = before ++ tab :: after -> tabNamed d name tab ->
       (forall t, In t before -> ~ tabNamed d name t) ->
       getSelectedTabIndex d tabs name fallback = number (tab_index tab)) /\
   ((forall t, In t tabs -> ~ tabNamed d name t) ->
    getSelectedTabIndex d tabs name fallback = number fallback)).
Proof.
  split.
  - intros Hname. destruct (indexMatch_contains name Hname) as [digits E].
    destruct (indexMatch_Some name digits E)
      as (pre & rest & Hs & Hne & Hall & Hstop & Hleft).
    exists pre, digits, rest.
    split; [exact Hs|]. split; [exact Hne|]. split; [exact Hall|].
    split; [exact Hstop|]. split; [exact Hleft|].
    intros d' tabs' fallback'. cbv zeta.
    assert (Hsel : getSelectedTabIndex d' tabs' name fallback'
                   = toNumber (decimalValue digits)).
    { unfold getSelectedTabIndex, parseInt.
      now rewrite E, mathInt_decimalValue. }
    split; [exact Hsel|]. split.
    + intros Hsafe. now rewrite Hsel, toNumber_safe.
    + intros w Hlarge Hw. rewrite Hsel in Hw.
      now apply toNumber_nearest.
  - intros Hname. now apply getSelectedTabIndex_by_number_free.
Qed.

End TabProperties.

Section TabReconciliation.

Context {Component Data : Type}.
Implicit Types d : @DeepLinker Component Data.
Implicit Types nav : @NavInstance Component Data.

Lemma initNav_serializer nav d :
  _serializer (snd (initNav nav d)) = _serializer d.
Proof. now rewrite initNav_fields. Qed.

Lemma tabNamed_serializer d d' name (t : Tab) :
  _serializer d' = _serializer d -> tabNamed d' name t <-> tabNamed d name t.
Proof. unfold tabNamed. now intros ->. Qed.

(** C7 (amended): a tabs container attributed a segment is sent one
    call, [select] with [animate: false] and [updateUrl: false], and no
    view is pushed or popped for it. When the segment's name has no
    [tab-<digits>] in it, the index is the one of the first tab whose
    url path equals the name or whose formatted title does, and 0 when
    no tab does. *)
Theorem _loadViewFromSegment_selects_tab d nav (tabs : list Tab) segment d' :
  nav_body nav = TabsGroup tabs ->
  initNav nav d = (Some segment, d') ->
  exists index,
    _loadViewFromSegment nav d
    = (d', [onNav (nav_id nav)
              (select index {| opt_id := None; animate := Some false;
                               updateUrl := Some false; isNavRoot := None |})])
    /\
    (~ containsTabIndex (seg_name segment) ->
     (forall before tab after,
         tabs = before ++ tab :: after ->
         tabNamed d (seg_name segment) tab ->
         (forall t, In t before -> ~ tabNamed d (seg_name segment) t) ->
         index = tab_index tab) /\
     ((forall t, In t tabs -> ~ tabNamed d (seg_name segment) t) ->
      index = 0%N)).
Proof.
  intros Hbody Hinit.
  exists (getSelectedTabIndex d' tabs (seg_name segment) 0). split.
  - unfold _loadViewFromSegment. now rewrite Hinit, Hbody.
  - intros Hname.
    assert (Hser : _serializer d' = _serializer d).
    { pose proof (initNav_serializer nav d) as H. now rewrite Hinit in H. }
    destruct (getSelectedTabIndex_by_number_free d' tabs (seg_name segment) 0 Hname)
      as [Hfirst Hnone].
    split.
    + intros before tab after Htabs Htab Hbefore.
      apply (Hfirst before tab after Htabs).
      * now apply (tabNamed_serializer d d').
      * intros t Hin Ht. apply (Hbefore t Hin).
        now apply (tabNamed_serializer d d') in Ht.
    + intros Hno. apply Hnone. intros t Hin Ht. apply (Hno t Hin).
      now apply (tabNamed_serializer d d') in Ht.
Qed.

End TabReconciliation.

(** C10, the claim as stated fails: the name holds the number
    9007199254740993, and the index returned is 9007199254740992, the
    double [parseInt] gives for those digits. *)
Lemma getSelectedTabIndex_rounds :
  decimalValue (js "9007199254740993") = 9007199254740993%N /\
  getSelectedTabIndex (appLinker [] None) [homeTab; settingsTab]
                      (js "tab-9007199254740993") 0
  = number 9007199254740992 /\
  getSelectedTabIndex (appLinker [] None) [homeTab; settingsTab]
                      (js "tab-9007199254740993") 0
  <> number 9007199254740993.
Proof. split; [reflexivity|]. split; [reflexivity | discriminate]. Qed.

Lemma getSelectedTabIndex_by_number_witness :
  getSelectedTabIndex (appLinker [] None) [homeTab; settingsTab]
                      (js "my-tab-12x") 0 = number 12 /\
  getSelectedTabIndex (appLinker [] None) [homeTab; settingsTab]
                      (js "tab-9007199254740995") 0
  = number 9007199254740996 /\
  getSelectedTabIndex (appLinker [] None) [homeTab; settingsTab]
                      (js "settings") 0 = number 1 /\
  getSelectedTabIndex (appLinker [] None) [homeTab; settingsTab]
                      (js "about") 0 = number 0.
Proof.
  pose proof (getSelectedTabIndex_by_number (appLinker [] None)
                [homeTab; settingsTab] (js "my-tab-12x") 0) as [Hnumber _].
  pose proof (getSelectedTabIndex_by_number (appLinker [] None)
                [homeTab; settingsTab] (js "tab-9007199254740995") 0)
    as [Hlarge _].
  pose proof (getSelectedTabIndex_by_number (appLinker [] None)
                [homeTab; settingsTab] (js "settings") 0) as [_ Hname].
  pose proof (getSelectedTabIndex_by_number (appLinker [] None)
                [homeTab; settingsTab] (js "about") 0) as [_ Hnone].
  split; [|split; [|split]].
  - destruct Hnumber as (pre & digits & rest & Hs & _ & _ & _ & _ & Hsel).
    + exists (js "my-"), (js "12"), (js "x").
      split; [reflexivity|]. split; [discriminate | repeat constructor].
    + destruct (Hsel (appLinker [] None) [homeTab; settingsTab] 0%N)
        as [Hvalue _].
      assert (Hread : toNumber (decimalValue digits) = number 12)
        by (rewrite <- Hvalue; reflexivity).
      rewrite Hvalue. exact Hread.
  - destruct Hlarge as (pre & digits & rest & _ & _ & _ & _ & _ & Hsel).
    + exists [], (js "9007199254740995"), [].
      split; [reflexivity|]. split; [discriminate | repeat constructor].
    + destruct (Hsel (appLinker [] None) [homeTab; settingsTab] 0%N)
        as [Hvalue _].
      assert (Hread : toNumber (decimalValue digits) = number 9007199254740996)
        by (rewrite <- Hvalue; reflexivity).
      rewrite Hvalue. exact Hread.
  - destruct Hname as [Hfirst _]; [apply indexMatch_None; reflexivity|].
    apply (Hfirst [homeTab] settingsTab []); [reflexivity | |].
    + left. reflexivity.
    + intros t [<-|[]] Ht. apply tabMatches_true in Ht. discriminate.
  - destruct Hnone as [_ Hfallback]; [apply indexMatch_None; reflexivity|].
    apply Hfallback.
    intros t [<-|[<-|[]]] Ht; apply tabMatches_true in Ht; discriminate.
Defined.

(** C7, the claim as stated fails: the first tab's url path is the
    segment's name, [tab-1], yet the name is read as a position and the
    tab at index 1 is selected; and a name such as [tab-7] that matches
    no tab selects index 7, not index 0. *)
Lemma _loadViewFromSegment_selects_by_position :
  tabUrlPath numberedTab = Some (seg_name (selectorSegment (js "tab-1"))) /\
  tab_index numberedTab = 0%N /\
  snd (_loadViewFromSegment (tabsNav [numberedTab; settingsTab])
                            (linkerAt [selectorSegment (js "tab-1")]))
  = [onNav (js "t0") (select 1 reconcileOptions)] /\
  snd (_loadViewFromSegment (tabsNav [homeTab; settingsTab])
                            (linkerAt [selectorSegment (js "tab-7")]))
  = [onNav (js "t0") (select 7 reconcileOptions)].
Proof. repeat split. Qed.

Lemma _loadViewFromSegment_selects_tab_witness :
  snd (_loadViewFromSegment (tabsNav [homeTab; settingsTab])
                            (linkerAt [selectorSegment (js "settings")]))
  = [onNav (js "t0")
       (select 1 {| opt_id := None; animate := Some false;
                    updateUrl := Some false; isNavRoot := None |})].
Proof.
  destruct (_loadViewFromSegment_selects_tab
              (linkerAt [selectorSegment (js "settings")])
              (tabsNav [homeTab; settingsTab])
              [homeTab; settingsTab]
              (setNavId (selectorSegment (js "settings")) (js "t0"))
              (linkerAt [setNavId (selectorSegment (js "settings")) (js "t0")])
              eq_refl eq_refl)
    as (index & Hload & Hindex).
  rewrite Hload. simpl.
  destruct Hindex as [Hfirst _]; [apply indexMatch_None; reflexivity|].
  rewrite (Hfirst [homeTab] settingsTab []); [reflexivity | reflexivity | |].
  - left. reflexivity.
  - intros t [<-|[]] Ht. apply tabMatches_true in Ht. discriminate.
Defined.

(** ** Reconciliation of a stack *)

Section StackReconciliation.

Context {Component Data : Type}.
Implicit Types d : @DeepLinker Component Data.
Implicit Types nav : @NavInstance Component Data.
Implicit Types view : @ViewController Component Data.
Implicit Types segment : @NavSegment Component Data.

Lemma strictEqOpt_true_iff (x : option jsstring) (y : jsstring) :
  strictEqOpt x y = true <-> x = Some y.
Proof.
  destruct x as [v|]; simpl; [|split; discriminate].
  rewrite strictEq_true_iff. split; [now intros -> | now intros [= ->]].
Qed.

Lemma strictEqOpt_false_iff (x : option jsstring) (y : jsstring) :
  strictEqOpt x y = false <-> x <> Some y.
Proof.
  rewrite <- strictEqOpt_true_iff. destruct (strictEqOpt x y); split; congruence.
Qed.

Lemma walkBackwards_step (views : list ViewController) segment count i :
  walkBackwards views segment count (S i) =
  match nth_error views i with
  | Some view =>
      if strictEqOpt (view_id view) (seg_id segment)
      then Some (if (Z.of_nat i =? count)%Z
                 then []
                 else [popTo view reconcileOptions])
      else walkBackwards views segment count i
  | None => walkBackwards views segment count i
  end.
Proof. reflexivity. Qed.

(** No view carries the id: the walk runs out. *)
Lemma walkBackwards_none (views : list ViewController) segment count n :
  (forall v, In v views -> view_id v <> Some (seg_id segment)) ->
  walkBackwards views segment count n = None.
Proof.
  intros Hnone. induction n as [|i IH]; [reflexivity|].
  rewrite walkBackwards_step.
  destruct (nth_error views i) as [view|] eqn:Hi; [|exact IH].
  apply nth_error_In in Hi.
  now rewrite (proj2 (strictEqOpt_false_iff _ _) (Hnone view Hi)).
Qed.

(** Views above the topmost one that carries the id are passed over. *)
Lemma walkBackwards_above (below above : list ViewController) view segment
      count k :
  (forall v, In v above -> view_id v <> Some (seg_id segment)) ->
  (k <= List.length above)%nat ->
  walkBackwards (below ++ view :: above) segment count (S (List.length below) + k)
  = walkBackwards (below ++ view :: above) segment count (S (List.length below)).
Proof.
  intros Habove. induction k as [|k IH]; intros Hk.
  - now rewrite Nat.add_0_r.
  - rewrite Nat.add_succ_r, walkBackwards_step.
    assert (Hnth : nth_error (below ++ view :: above) (S (List.length below) + k)
                   = nth_error above k).
    { rewrite nth_error_app2 by lia.
      now replace (S (List.length below) + k - List.length below)%nat
        with (S k) by lia. }
    rewrite Hnth.
    destruct (nth_error above k) as [v|] eqn:Hv.
    + apply nth_error_In in Hv.
      rewrite (proj2 (strictEqOpt_false_iff _ _) (Habove v Hv)).
      apply IH. lia.
    + apply IH. lia.
Qed.

Lemma walkBackwards_found (below above : list ViewController) view segment
      count :
  view_id view = Some (seg_id segment) ->
  (forall v, In v above -> view_id v <> Some (seg_id segment)) ->
  walkBackwards (below ++ view :: above) segment count
                (List.length (below ++ view :: above))
  = Some (if (Z.of_nat (List.length below) =? count)%Z
          then []
          else [popTo view reconcileOptions]).
Proof.
  intros Hid Habove.
  replace (List.length (below ++ view :: above))
    with (S (List.length below) + List.length above)%nat
    by (rewrite length_app; simpl; lia).
  rewrite (walkBackwards_above below above view segment count _ Habove)
    by lia.
  rewrite walkBackwards_step, nth_error_app2, Nat.sub_diag by lia. simpl.
  now rewrite (proj2 (strictEqOpt_true_iff _ _) Hid).
Qed.

Lemma _loadViewFromSegment_stack d nav (views : list ViewController) segment d' :
  nav_body nav = NavStack views ->
  initNav nav d = (Some segment, d') ->
  _loadViewFromSegment nav d =
  match walkBackwards views segment (len views - 1) (List.length views) with
  | Some calls => (d', map (onNav (nav_id nav)) calls)
  | None =>
      (d', [onNav (nav_id nav)
              (push (seg_component segment) (seg_data segment)
                    (pushOptions (seg_id segment)))])
  end.
Proof.
  intros Hbody Hinit. unfold _loadViewFromSegment.
  rewrite Hinit, Hbody. cbv zeta.
  now replace (Z.to_nat (len views - 1 + 1)) with (List.length views)
    by (unfold len; lia).
Qed.

(** C1: an ion-nav attributed a segment is searched from the top for a
    view with the segment's id. Found on top, nothing is done; found
    below the top, the stack is popped to that view; found nowhere, a
    view of the segment's component and data with the segment's id is
    pushed; both calls with [animate: false] and [updateUrl: false]. *)
Theorem _loadViewFromSegment_reconciles d nav (views : list ViewController)
        segment d' :
  nav_body nav = NavStack views ->
  initNav nav d = (Some segment, d') ->
  (forall below view,
      views = below ++ [view] ->
      view_id view = Some (seg_id segment) ->
      _loadViewFromSegment nav d = (d', [])) /\
  (forall below view above,
      views = below ++ view :: above -> above <> [] ->
      view_id view = Some (seg_id segment) ->
      (forall v, In v above -> view_id v <> Some (seg_id segment)) ->
      _loadViewFromSegment nav d
      = (d', [onNav (nav_id nav)
                (popTo view {| opt_id := None; animate := Some false;
                               updateUrl := Some false; isNavRoot := None |})])) /\
  ((forall v, In v views -> view_id v <> Some (seg_id segment)) ->
   _loadViewFromSegment nav d
   = (d', [onNav (nav_id nav)
             (push (seg_component segment) (seg_data segment)
                   {| opt_id := Some (seg_id segment); animate := Some false;
                      updateUrl := Some false; isNavRoot := None |})])).
Proof.
  intros Hbody Hinit.
  rewrite (_loadViewFromSegment_stack d nav views segment d' Hbody Hinit).
  split; [|split].
  - intros below view -> Hid.
    rewrite (walkBackwards_found below [] view segment _ Hid)
      by (intros v []).
    rewrite len_snoc.
    now replace (Z.of_nat (List.length below) =? len below + 1 - 1)%Z
      with true by (symmetry; apply Z.eqb_eq; unfold len; lia).
  - intros below view above -> Habove Hid Hids.
    rewrite (walkBackwards_found below above view segment _ Hid Hids).
    replace (Z.of_nat (List.length below) =? len (below ++ view :: above) - 1)%Z
      with false; [reflexivity|].
    symmetry. apply Z.eqb_neq. unfold len. rewrite length_app. simpl.
    destruct above; [contradiction | simpl; lia].
  - intros Hnone. now rewrite (walkBackwards_none views segment _ _ Hnone).
Qed.

End StackReconciliation.

Lemma _loadViewFromSegment_reconciles_witness :
  snd (_loadViewFromSegment
         (stackNav [viewOf ListPage "list"; viewOf DetailPage "detail/42"])
         (linkerAt [detailSegment])) = [] /\
  snd (_loadViewFromSegment
         (stackNav [viewOf HomePage "home"; viewOf DetailPage "detail/42";
                    viewOf ListPage "list"; viewOf LazyPage "lazy"])
         (linkerAt [detailSegment]))
  = [onNav (js "n0")
       (popTo (viewOf DetailPage "detail/42")
              {| opt_id := None; animate := Some false;
                 updateUrl := Some false; isNavRoot := None |})] /\
  snd (_loadViewFromSegment
         (stackNav [viewOf HomePage "home"; viewOf ListPage "list"])
         (linkerAt [detailSegment]))
  = [onNav (js "n0")
       (push (Some DetailPage) (Some [(js "id", js "42")])
             {| opt_id := Some (js "detail/42"); animate := Some false;
                updateUrl := Some false; isNavRoot := None |})].
Proof.
  split; [|split].
  - destruct (_loadViewFromSegment_reconciles
                (linkerAt [detailSegment])
                (stackNav [viewOf ListPage "list"; viewOf DetailPage "detail/42"])
                _ _ _ eq_refl eq_refl) as (Htop & _ & _).
    now rewrite (Htop [viewOf ListPage "list"] (viewOf DetailPage "detail/42")).
  - destruct (_loadViewFromSegment_reconciles
                (linkerAt [detailSegment])
                (stackNav [viewOf HomePage "home"; viewOf DetailPage "detail/42";
                           viewOf ListPage "list"; viewOf LazyPage "lazy"])
                _ _ _ eq_refl eq_refl) as (_ & Hbelow & _).
    rewrite (Hbelow [viewOf HomePage "home"] (viewOf DetailPage "detail/42")
                    [viewOf ListPage "list"; viewOf LazyPage "lazy"]);
      try reflexivity; try discriminate.
    intros v [<-|[<-|[]]]; discriminate.
  - destruct (_loadViewFromSegment_reconciles
                (linkerAt [detailSegment])
                (stackNav [viewOf HomePage "home"; viewOf ListPage "list"])
                _ _ _ eq_refl eq_refl) as (_ & _ & Hnone).
    rewrite Hnone; [reflexivity|].
    intros v [<-|[<-|[]]]; discriminate.
Defined.

(** ** Component lookup and default history *)

Section LookupProperties.

Context {Component Data : Type}.
Implicit Types d : @DeepLinker Component Data.
Implicit Types link : @NavLink Component.
Implicit Types segment : @NavSegment Component Data.

(** A name with no registered link: a rejected promise. *)
Lemma getComponentFromName_unregistered d name :
  getLinkFromName (_serializer d) name = None ->
  getComponentFromName d name = Rejected (js "invalid link: " ++ name).
Proof. intros H. unfold getComponentFromName. now rewrite H. Qed.

(** A link with neither a component nor a locator: a rejected promise,
    and the link is left as it was. *)
Lemma getNavLinkComponent_empty_link d link :
  link_component link = None ->
  truthy (link_loadChildren link) = false ->
  getNavLinkComponent d link
  = (link, Rejected (js "invalid link component: " ++ link_name link)).
Proof.
  intros Hc Hl. unfold getNavLinkComponent. rewrite Hc.
  destruct (link_loadChildren link) as [[|c locator]|];
    [reflexivity | discriminate | reflexivity].
Qed.

(** A rejection of [getNavLinkComponent] is the rejection of [initViews]. *)
Lemma initViews_rejected d segment link reason :
  getLinkFromName (_serializer d) (seg_name segment) = Some link ->
  snd (getNavLinkComponent d link) = Rejected reason ->
  initViews d segment = Normal (segment, Rejected reason).
Proof. intros Hl Hr. unfold initViews. now rewrite Hl, Hr. Qed.

Lemma promiseAll_resolved {A : Type} (ps : list (Promise A)) (vs : list A) :
  Forall2 (fun p v => p = Resolved v) ps vs -> promiseAll ps = Resolved vs.
Proof.
  induction 1 as [|p v ps vs Hp _ IH]; simpl; [reflexivity|].
  now rewrite Hp, IH.
Qed.

(** One rejection among promises that resolve is the rejection of the
    list. *)
Lemma promiseAll_rejected {A : Type} (ps qs : list (Promise A))
      (vs ws : list A) (reason : jsstring) :
  Forall2 (fun p v => p = Resolved v) ps vs ->
  Forall2 (fun q w => q = Resolved w) qs ws ->
  promiseAll (ps ++ Rejected reason :: qs) = Rejected reason.
Proof.
  intros Hps _. induction Hps as [|p v ps vs Hp _ IH]; simpl; [reflexivity|].
  now rewrite Hp, IH.
Qed.

Lemma convertToViews_resolved d (names : list jsstring)
      (components : list Component) :
  Forall2 (fun name c => getComponentFromName d name = Resolved c)
          names components ->
  convertToViews d names
  = Resolved (map (fun c => newViewController (Some c) None) components).
Proof.
  intros H. apply promiseAll_resolved.
  induction H as [|name c names components Hc _ IH]; simpl; constructor.
  - now rewrite Hc.
  - exact IH.
Qed.

(** A default-history name that fails to resolve, among names that do,
    rejects the whole list with its reason. *)
Lemma convertToViews_rejected d (names after : list jsstring)
      (components others : list Component) name reason :
  Forall2 (fun name c => getComponentFromName d name = Resolved c)
          names components ->
  Forall2 (fun name c => getComponentFromName d name = Resolved c)
          after others ->
  getComponentFromName d name = Rejected reason ->
  convertToViews d (names ++ name :: after) = Rejected reason.
Proof.
  intros H Ha Hr. unfold convertToViews. rewrite map_app. simpl. rewrite Hr.
  simpl.
  apply (promiseAll_rejected _ _
           (map (fun c => newViewController (Some c) None) components)
           (map (fun c => newViewController (Some c) None) others)).
  - induction H as [|n c ns cs Hc _ IH]; simpl; constructor.
    + now rewrite Hc.
    + exact IH.
  - induction Ha as [|n c ns cs Hc _ IH]; simpl; constructor.
    + now rewrite Hc.
    + exact IH.
Qed.

(** The rejection of a default-history lookup, when one name of the
    history is rejected and the others resolve, is the rejection of
    [initViews]. *)
Lemma initViews_default_history_rejected d segment link component
      (names after : list jsstring) (components others : list Component)
      name reason :
  getLinkFromName (_serializer d) (seg_name segment) = Some link ->
  snd (getNavLinkComponent d link) = Resolved component ->
  seg_defaultHistory segment = Some (names ++ name :: after) ->
  Forall2 (fun name c => getComponentFromName d name = Resolved c)
          names components ->
  Forall2 (fun name c => getComponentFromName d name = Resolved c)
          after others ->
  getComponentFromName d name = Rejected reason ->
  initViews d segment
  = Normal (setSegComponent segment component, Rejected reason).
Proof.
  intros Hl Hc Hh Hn Ha Hr. unfold initViews. rewrite Hl, Hc. simpl.
  now rewrite Hh, (convertToViews_rejected d names after components others
                     name reason).
Qed.

(** C5, where the code departs from the claim: [initViews] on a
    segment whose name has no registered link does not return a
    rejected promise; it throws. *)
Theorem initViews_unregistered_throws d segment :
  getLinkFromName (_serializer d) (seg_name segment) = None ->
  initViews d segment = Throw TypeError.
Proof. intros H. unfold initViews. now rewrite H. Qed.

(** C6: when the segment's link and the names of its default history
    resolve, [initViews] answers the views of those names, in order,
    followed by the deep-linked view, which carries the segment's
    component, data and id and comes last. *)
Theorem initViews_default_history d segment link component
        (names : list jsstring) (components : list Component) :
  getLinkFromName (_serializer d) (seg_name segment) = Some link ->
  snd (getNavLinkComponent d link) = Resolved component ->
  seg_defaultHistory segment = Some names ->
  Forall2 (fun name c => getComponentFromName d name = Resolved c)
          names components ->
  initViews d segment
  = Normal
      (setSegComponent segment component,
       Resolved
         (map (fun c => newViewController (Some c) None) components
          ++ [ {| view_component := Some component;
                  view_data := seg_data segment;
                  view_id := Some (seg_id segment) |} ])).
Proof.
  intros Hl Hc Hh Hn. unfold initViews. rewrite Hl, Hc. simpl.
  now rewrite Hh, (convertToViews_resolved d names components Hn).
Qed.

End LookupProperties.

Lemma initViews_unregistered_throws_witness :
  initViews (appLinker [js "/settings"] None) (selectorSegment (js "settings"))
  = Throw TypeError.
Proof. apply initViews_unregistered_throws. reflexivity. Defined.

(** The rest of C5 holds on the application's links. *)
Example lookup_rejections :
  getComponentFromName (appLinker [] None) (js "settings")
  = Rejected (js "invalid link: settings") /\
  getComponentFromName (appLinker [] None) (js "broken")
  = Rejected (js "invalid link component: broken") /\
  getComponentFromName (appLinker [] None) (js "lazy") = Resolved LazyPage /\
  initViews (appLinker [] None) (selectorSegment (js "broken"))
  = Normal (selectorSegment (js "broken"),
            Rejected (js "invalid link component: broken")).
Proof. repeat split. Qed.

Lemma initViews_default_history_witness :
  initViews (appLinker [js "/detail/42"] None) detailSegment
  = Normal
      (detailSegment,
       Resolved
         [ {| view_component := Some ListPage; view_data := None;
              view_id := None |};
           {| view_component := Some DetailPage;
              view_data := Some [(js "id", js "42")];
              view_id := Some (js "detail/42") |} ]).
Proof.
  apply (initViews_default_history
           (appLinker [js "/detail/42"] None) detailSegment
           {| link_name := js "detail-page"; link_component := Some DetailPage;
              link_loadChildren := None |}
           DetailPage [js "list"] [ListPage]);
    try reflexivity.
  repeat constructor.
Defined.

(** * Further properties

    ** URL normalisation *)

Lemma trimStart_padding (pad s : jsstring) :
  allWhiteSpace pad -> trimStart (pad ++ s) = trimStart s.
Proof.
  induction 1 as [|c pad Hc _ IH]; simpl; [reflexivity|]. now rewrite Hc.
Qed.

Lemma trimEnd_padding (s pad : jsstring) :
  allWhiteSpace pad -> trimEnd (s ++ pad) = trimEnd s.
Proof.
  intros Hpad. unfold trimEnd. rewrite rev_app_distr, trimStart_padding;
    [reflexivity|].
  now apply Forall_rev.
Qed.

Lemma trimEnd_blank (pad : jsstring) : allWhiteSpace pad -> trimEnd pad = [].
Proof.
  intros Hpad. change pad with ([] ++ pad). now rewrite trimEnd_padding.
Qed.

Lemma trim_padding (before s after : jsstring) :
  allWhiteSpace before -> allWhiteSpace after ->
  trim (before ++ s ++ after) = trim s.
Proof.
  intros Hb Ha. unfold trim. rewrite (trimStart_padding before _ Hb).
  induction s as [|c s IH]; simpl.
  - rewrite (trimEnd_blank (trimStart after)); [reflexivity|].
    clear Hb. induction Ha as [|x after Hx _ IHa]; simpl; [constructor|].
    now rewrite Hx.
  - destruct (isWhiteSpace c); [exact IH|].
    change (c :: s ++ after) with ((c :: s) ++ after).
    now apply trimEnd_padding.
Qed.

(** X1: white space around the url makes no difference. *)
Theorem normalizeUrl_ignores_padding (before u after : jsstring) :
  allWhiteSpace before -> allWhiteSpace after ->
  normalizeUrl (before ++ u ++ after) = normalizeUrl u.
Proof.
  intros Hb Ha. unfold normalizeUrl. now rewrite (trim_padding before u after Hb Ha).
Qed.

Lemma normalizeUrl_ignores_padding_witness :
  normalizeUrl (js "  " ++ js "list/" ++ [9%N; 10%N]) = normalizeUrl (js "list/").
Proof.
  apply normalizeUrl_ignores_padding; repeat constructor.
Defined.

(** X2: whatever the input, the result starts with a slash; it is never
    the empty string. *)
Theorem normalizeUrl_starts_with_slash (u : jsstring) :
  exists rest, normalizeUrl u = 47%N :: rest.
Proof.
  destruct (leadSlash_head (trim u)) as [s Hs].
  destruct (leadSlash (trim u)) as [|x p _] eqn:Hp using rev_ind;
    [discriminate|].
  destruct (N.eq_dec x 47) as [->|Hx].
  - destruct p as [|y p].
    + exists []. now apply normalizeUrl_root.
    + rewrite (normalizeUrl_strip u p y Hp). simpl in Hs.
      injection Hs as -> _. now exists p.
  - rewrite (normalizeUrl_keep u p x Hp Hx), Hs. now exists s.
Qed.

(** X3: a clean path written bare, with a leading slash, with a
    trailing slash or with both normalises to the same url, the path
    behind one slash. *)
Theorem normalizeUrl_canonical (t : jsstring) :
  cleanPath t ->
  normalizeUrl t = js "/" ++ t /\
  normalizeUrl (js "/" ++ t) = js "/" ++ t /\
  normalizeUrl (t ++ js "/") = js "/" ++ t /\
  normalizeUrl (js "/" ++ t ++ js "/") = js "/" ++ t.
Proof.
  intros [Hfirst Hlast].
  destruct t as [|c t]; [now repeat split|].
  destruct (Hfirst c t eq_refl) as [Hc Hwc].
  destruct (c :: t) as [|z body _] eqn:E using rev_ind; [discriminate|].
  destruct (Hlast body z eq_refl) as [Hz Hwz].
  assert (Hc47 : (c =? 47)%N = false) by now apply N.eqb_neq.
  assert (Hbare : trim (c :: t) = c :: t)
    by (apply (trim_fixed c z t body); assumption).
  assert (Hlead : trim (47%N :: c :: t) = 47%N :: c :: t).
  { apply (trim_fixed 47 z (c :: t) (47%N :: body));
      [now rewrite E | reflexivity | assumption]. }
  assert (Htrail : trim ((c :: t) ++ [47%N]) = (c :: t) ++ [47%N]).
  { apply (trim_fixed c 47 (t ++ [47%N]) (c :: t));
      [reflexivity | assumption | reflexivity]. }
  assert (Hboth : trim (47%N :: (c :: t) ++ [47%N]) = 47%N :: (c :: t) ++ [47%N]).
  { apply (trim_fixed 47 47 ((c :: t) ++ [47%N]) (47%N :: c :: t));
      reflexivity. }
  rewrite <- E. repeat split.
  - rewrite E. apply (normalizeUrl_keep _ (47%N :: body) z); [|assumption].
    rewrite <- E, Hbare. simpl. now rewrite Hc47, E.
  - rewrite E. apply (normalizeUrl_keep _ (47%N :: body) z); [|assumption].
    rewrite <- E. change (js "/" ++ c :: t) with (47%N :: c :: t).
    rewrite Hlead. simpl. now rewrite E.
  - apply (normalizeUrl_strip _ (c :: t) 47).
    change ((c :: t) ++ js "/") with ((c :: t) ++ [47%N]).
    rewrite Htrail. simpl. now rewrite Hc47.
  - apply (normalizeUrl_strip _ (c :: t) 47).
    change (js "/" ++ (c :: t) ++ js "/") with (47%N :: (c :: t) ++ [47%N]).
    now rewrite Hboth.
Qed.

Lemma normalizeUrl_canonical_witness :
  normalizeUrl (js "list/detail") = js "/list/detail" /\
  normalizeUrl (js "/list/detail") = js "/list/detail" /\
  normalizeUrl (js "list/detail/") = js "/list/detail" /\
  normalizeUrl (js "/list/detail/") = js "/list/detail".
Proof.
  apply (normalizeUrl_canonical (js "list/detail")). split.
  - intros c s H. injection H as <- _. split; [discriminate | reflexivity].
  - intros s c H. change (js "list/detail") with (js "list/detai" ++ [108%N]) in H.
    apply app_inj_tail in H as [_ <-]. split; [discriminate | reflexivity].
Defined.

Lemma trimStart_suffix (s : jsstring) : exists w, s = w ++ trimStart s.
Proof.
  induction s as [|c s [w Hw]]; simpl; [now exists []|].
  destruct (isWhiteSpace c); [|now exists []].
  exists (c :: w). simpl. now f_equal.
Qed.

Lemma trimEnd_prefix (s : jsstring) : exists w, s = trimEnd s ++ w.
Proof.
  unfold trimEnd. destruct (trimStart_suffix (rev s)) as [w Hw].
  exists (rev w). rewrite <- rev_app_distr, <- Hw. now rewrite rev_involutive.
Qed.

Lemma trimStart_keeps (l : jsstring) (c : N) :
  isWhiteSpace c = false -> trimStart (l ++ [c]) <> [].
Proof.
  intros Hc. induction l as [|x l IH]; simpl; [now rewrite Hc|].
  now destruct (isWhiteSpace x).
Qed.

(** A string that starts with a slash does not grow when normalised. *)
Lemma normalizeUrl_lead_length (s : jsstring) :
  (List.length (leadSlash (trim (47%N :: s))) <= List.length (47%N :: s))%nat.
Proof.
  unfold trim. change (trimStart (47%N :: s)) with (47%N :: s).
  destruct (trimEnd_prefix (47%N :: s)) as [w Hw].
  assert (Hne : trimEnd (47%N :: s) <> []).
  { unfold trimEnd. intros H. apply (f_equal (@rev N)) in H.
    rewrite rev_involutive in H. simpl in H.
    now apply (trimStart_keeps (rev s) 47). }
  destruct (trimEnd (47%N :: s)) as [|x t] eqn:E; [contradiction|].
  simpl in Hw. injection Hw as <- Hs. simpl.
  rewrite Hs, length_app. lia.
Qed.

(** X4: the urls that [normalizeUrl] leaves as they are: the root
    path, and the strings that start with a slash and end in a unit
    that is neither a slash nor white space. *)
Theorem normalizeUrl_fixed_points (r : jsstring) :
  normalizeUrl r = r <->
  r = js "/" \/
  (exists s t c, r = 47%N :: s /\ r = t ++ [c] /\
                 c <> 47%N /\ isWhiteSpace c = false).
Proof.
  split; [|apply normalizeUrl_fixed].
  intros Hfix.
  destruct (leadSlash_head (trim r)) as [s0 Hhead].
  destruct (leadSlash (trim r)) as [|x p _] eqn:Hp using rev_ind;
    [discriminate|].
  destruct (N.eq_dec x 47) as [->|Hx].
  - destruct p as [|y p].
    + left. rewrite <- Hfix. now apply normalizeUrl_root.
    + exfalso. rewrite (normalizeUrl_strip r p y Hp) in Hfix.
      simpl in Hhead. injection Hhead as -> _. subst r.
      pose proof (normalizeUrl_lead_length p) as Hlen.
      rewrite Hp, length_app in Hlen. simpl in Hlen. lia.
  - right. rewrite (normalizeUrl_keep r p x Hp Hx) in Hfix.
    destruct (leadSlash_snoc _ _ _ Hp) as [(_ & _ & H)|(q' & Ht & _)];
      [contradiction|].
    exists s0, p, x. repeat split.
    + now rewrite <- Hfix.
    + now rewrite <- Hfix.
    + assumption.
    + now apply (trim_last r q').
Qed.

Lemma normalizeUrl_fixed_points_witness :
  normalizeUrl (js "/list/detail") = js "/list/detail" /\
  normalizeUrl (js "/") = js "/".
Proof.
  split.
  - apply (proj2 (normalizeUrl_fixed_points (js "/list/detail"))). right.
    exists (js "list/detail"), (js "/list/detai"), 108%N.
    repeat split. discriminate.
  - apply (proj2 (normalizeUrl_fixed_points (js "/"))). now left.
Defined.

(** ** History tracker *)

Section HistoryExtras.

Context {Component Data : Type}.
Implicit Types d : @DeepLinker Component Data.
Implicit Types u url : jsstring.

(** X5: the two tests read the last and the last but one entry: a url
    is current exactly when the history ends with it, and a back url
    exactly when one more entry follows it at the end; on an empty
    history, or one of a single entry, the index falls outside and the
    answer is no. *)
Theorem history_tests_read_the_end d u :
  (_isCurrentUrl d u = true <-> exists pre, _history d = pre ++ [u]) /\
  (_isBackUrl d u = true <-> exists pre top, _history d = pre ++ [u; top]) /\
  (_history d = [] -> _isCurrentUrl d u = false) /\
  ((List.length (_history d) < 2)%nat -> _isBackUrl d u = false).
Proof.
  split; [apply _isCurrentUrl_true | split; [apply _isBackUrl_true | split]].
  - intros H. apply _isCurrentUrl_false. intros pre Hpre. rewrite H in Hpre.
    now destruct pre.
  - intros H. apply _isBackUrl_false. intros pre top Hpre. rewrite Hpre in H.
    rewrite length_app in H. simpl in H. lia.
Qed.

Lemma _isCurrentUrl_history d (d' : @DeepLinker Component Data) u :
  _history d' = _history d -> _isCurrentUrl d' u = _isCurrentUrl d u.
Proof. unfold _isCurrentUrl. now intros ->. Qed.

Lemma _isBackUrl_history d (d' : @DeepLinker Component Data) u :
  _history d' = _history d -> _isBackUrl d' u = _isBackUrl d u.
Proof. unfold _isBackUrl. now intros ->. Qed.

Lemma tl_snoc {A : Type} (l : list A) (x : A) :
  l <> [] -> tl (l ++ [x]) = tl l ++ [x].
Proof. destruct l; [intros H; now destruct H | reflexivity]. Qed.

Lemma _historyPush_top d u : exists pre, _history (_historyPush u d) = pre ++ [u].
Proof.
  rewrite _history_push. destruct (_isCurrentUrl d u) eqn:Hcur.
  - now apply _isCurrentUrl_true.
  - destruct (Z.ltb_spec 30 (len (_history d ++ [u]))) as [Hfull|_]; [|eauto].
    destruct (_history d) as [|x h]; [unfold len in Hfull; simpl in Hfull; lia|].
    exists h. reflexivity.
Qed.

(** X6: after [_historyPush] the url is the current one, whether it was
    appended or already on top, and pushing it again changes nothing. *)
Theorem _historyPush_makes_current d u :
  _isCurrentUrl (_historyPush u d) u = true /\
  _historyPush u (_historyPush u d) = _historyPush u d.
Proof.
  assert (Hcur : _isCurrentUrl (_historyPush u d) u = true)
    by (apply _isCurrentUrl_true, _historyPush_top).
  split; [exact Hcur|].
  unfold _historyPush at 1. now rewrite Hcur.
Qed.

Lemma setHistory_back d (h : list jsstring) :
  setHistory (setHistory d h) (_history d) = d.
Proof. now destruct d. Qed.

(** X7: a push followed by a pop gives the linker back, as long as the
    buffer was neither empty nor full and the url was new; on a full
    buffer the oldest entry is lost for good. *)
Theorem _historyPush_then_pop d u :
  (forall pre, _history d <> pre ++ [u]) ->
  ((_history d <> [] -> (List.length (_history d) < 30)%nat ->
    _historyPop (_historyPush u d) = d) /\
   (forall oldest rest, _history d = oldest :: rest ->
    List.length (_history d) = 30%nat ->
    _history (_historyPop (_historyPush u d)) = rest)).
Proof.
  intros Hnew. apply _isCurrentUrl_false in Hnew. split.
  - intros Hne Hlen. unfold _historyPush. rewrite Hnew. simpl.
    replace (30 <? len (_history d ++ [u]))%Z with false
      by (symmetry; apply Z.ltb_ge; unfold len; rewrite length_app; simpl; lia).
    unfold _historyPop. simpl. rewrite removelast_last.
    replace (len (_history d) =? 0)%Z with false; [apply setHistory_back|].
    symmetry. apply Z.eqb_neq. unfold len. destruct (_history d); simpl; [easy|lia].
  - intros oldest rest Hh Hlen.
    rewrite _history_pop, _history_push, Hnew.
    replace (30 <? len (_history d ++ [u]))%Z with true
      by (symmetry; apply Z.ltb_lt; unfold len; rewrite length_app; simpl; lia).
    rewrite Hh. simpl. rewrite removelast_last.
    destruct rest; [|reflexivity]. rewrite Hh in Hlen. simpl in Hlen. lia.
Qed.

End HistoryExtras.

Lemma history_tests_read_the_end_witness :
  _isCurrentUrl (appLinker [] None) (js "/a") = false /\
  _isBackUrl (appLinker [js "/a"] None) (js "/a") = false.
Proof.
  split.
  - apply (proj1 (proj2 (proj2
             (history_tests_read_the_end (appLinker [] None) (js "/a"))))).
    reflexivity.
  - apply (proj2 (proj2 (proj2
             (history_tests_read_the_end (appLinker [js "/a"] None) (js "/a"))))).
    simpl. lia.
Defined.

Lemma _historyPush_then_pop_witness :
  _historyPop (_historyPush (js "/c") (appLinker [js "/a"; js "/b"] None))
  = appLinker [js "/a"; js "/b"] None /\
  _history (_historyPop (_historyPush (js "/new") (appLinker fullHistory None)))
  = tl fullHistory.
Proof.
  assert (Hc : forall pre,
             _history (appLinker [js "/a"; js "/b"] None) <> pre ++ [js "/c"]).
  { intros pre H.
    change (_history (appLinker [js "/a"; js "/b"] None))
      with ([js "/a"] ++ [js "/b"]) in H.
    apply app_inj_tail in H as [_ H]. discriminate. }
  assert (Hnew : forall pre,
             _history (appLinker fullHistory None) <> pre ++ [js "/new"]).
  { intros pre H.
    change (_history (appLinker fullHistory None))
      with (removelast fullHistory ++ [47%N :: repeat 112%N 30]) in H.
    apply app_inj_tail in H as [_ H]. discriminate. }
  split.
  - apply (proj1 (_historyPush_then_pop _ _ Hc)); [discriminate | simpl; lia].
  - apply (proj2 (_historyPush_then_pop _ _ Hnew) (js "/p") (tl fullHistory));
      reflexivity.
Defined.


(** ** Attribution and reconciliation *)

Section LoaderExtras.

Context {Component Data : Type}.
Implicit Types d : @DeepLinker Component Data.
Implicit Types nav : @NavInstance Component Data.
Implicit Types segment : @NavSegment Component Data.

Lemma eraseNavId_setNavId segment id :
  eraseNavId (setNavId segment id) = eraseNavId segment.
Proof. reflexivity. Qed.

Lemma initNavLoop_spec (navId parentId : jsstring) :
  forall (rest : list (@NavSegment Component Data)) (prev : NavSegment),
  match initNavLoop navId parentId prev rest with
  | Some (found, rest') =>
      exists before p s after,
        prev :: rest = before ++ p :: s :: after /\
        seg_navId p = Some parentId /\
        (forall q, In q before -> seg_navId q <> Some parentId) /\
        found = setNavId s navId /\
        prev :: rest' = before ++ p :: setNavId s navId :: after
  | None =>
      forall before p s after,
        prev :: rest = before ++ p :: s :: after ->
        seg_navId p <> Some parentId
  end.
Proof.
  induction rest as [|segment rest IH]; intros prev; simpl.
  - intros before p s after H.
    destruct before as [|? [|? ?]]; discriminate.
  - destruct (strictEqOpt (seg_navId prev) parentId) eqn:Hprev.
    + apply strictEqOpt_true_iff in Hprev.
      exists [], prev, segment, rest. repeat split; try assumption.
      intros q [].
    + apply strictEqOpt_false_iff in Hprev.
      specialize (IH segment).
      destruct (initNavLoop navId parentId segment rest) as [[found rest']|].
      * destruct IH as (before & p & s & after & Hpath & Hp & Hbefore & Hf & Hr).
        exists (prev :: before), p, s, after. simpl. rewrite Hpath, Hr.
        repeat split; try assumption.
        intros q [<-|Hq]; [assumption | now apply Hbefore].
      * intros [|q before] p s after H.
        -- simpl in H. injection H as <- _ _. assumption.
        -- simpl in H. injection H as _ H. now apply (IH before p s after).
Qed.

Lemma initNav_root d nav first rest :
  nav_parent nav = None -> _segments d = first :: rest ->
  initNav nav d
  = (Some (setNavId first (nav_id nav)),
     setSegments d (setNavId first (nav_id nav) :: rest)).
Proof. intros Hparent Hpath. unfold initNav. now rewrite Hpath, Hparent. Qed.

Lemma initNav_child_of d nav parentId before p s after :
  nav_parent nav = Some parentId ->
  _segments d = before ++ p :: s :: after ->
  seg_navId p = Some parentId ->
  (forall q, In q before -> seg_navId q <> Some parentId) ->
  initNav nav d
  = (Some (setNavId s (nav_id nav)),
     setSegments d (before ++ p :: setNavId s (nav_id nav) :: after)).
Proof.
  intros Hparent Hpath Hp Hbefore.
  unfold initNav. rewrite Hparent.
  destruct (_segments d) as [|first rest] eqn:E;
    [now destruct before|].
  pose proof (initNavLoop_spec (nav_id nav) parentId rest first) as Hloop.
  destruct (initNavLoop (nav_id nav) parentId first rest)
    as [[found rest']|].
  - destruct Hloop as (before' & p' & s' & after' & Hpath' & Hp' & Hbefore'
                       & -> & Hrest').
    rewrite Hpath in Hpath'.
    assert (Hsame : before = before' /\ p = p' /\ s = s' /\ after = after').
    { clear - Hpath' Hp Hp' Hbefore Hbefore'.
      revert before' Hpath' Hbefore'.
      induction before as [|q before IH]; intros [|q' before'] Hpath' Hbefore'.
      - simpl in Hpath'. now injection Hpath' as -> -> ->.
      - simpl in Hpath'. injection Hpath' as -> _.
        destruct (Hbefore' q'); [now left | assumption].
      - simpl in Hpath'. injection Hpath' as -> _.
        destruct (Hbefore p'); [now left | assumption].
      - simpl in Hpath'. injection Hpath' as -> Hpath'.
        destruct (IH (fun x Hx => Hbefore x (or_intror Hx)) before' Hpath'
                     (fun x Hx => Hbefore' x (or_intror Hx)))
          as (-> & -> & -> & ->).
        now repeat split. }
    destruct Hsame as (<- & <- & <- & <-). now rewrite Hrest'.
  - destruct (Hloop before p s after Hpath Hp).
Qed.

(** X8: a controller without a parent owns the first segment. A
    controller with a parent owns the segment that follows the first
    segment owned by its parent. The segment it is given carries the
    controller's id, and no other segment is touched. *)
Theorem initNav_attribution d nav :
  (forall first rest,
      nav_parent nav = None -> _segments d = first :: rest ->
      initNav nav d
      = (Some (setNavId first (nav_id nav)),
         setSegments d (setNavId first (nav_id nav) :: rest))) /\
  (forall parentId before p s after,
      nav_parent nav = Some parentId ->
      _segments d = before ++ p :: s :: after ->
      seg_navId p = Some parentId ->
      (forall q, In q before -> seg_navId q <> Some parentId) ->
      initNav nav d
      = (Some (setNavId s (nav_id nav)),
         setSegments d (before ++ p :: setNavId s (nav_id nav) :: after))).
Proof.
  split.
  - intros first rest. apply initNav_root.
  - intros parentId before p s after. apply initNav_child_of.
Qed.

(** X9: asking again changes nothing: a controller that is attributed
    a segment a second time gets the same segment and leaves the
    segments as the first attribution left them. *)
Theorem initNav_idempotent d nav :
  initNav nav (snd (initNav nav d)) = initNav nav d.
Proof.
  destruct (_segments d) as [|first rest] eqn:E.
  - assert (Hd : initNav nav d = (None, d))
      by (unfold initNav; now rewrite E).
    rewrite Hd. simpl. exact Hd.
  - destruct (nav_parent nav) as [parentId|] eqn:Hparent.
    + pose proof (initNavLoop_spec (nav_id nav) parentId rest first) as Hloop.
      destruct (initNavLoop (nav_id nav) parentId first rest)
        as [[found rest']|] eqn:Eloop.
      * destruct Hloop as (before & p & s & after & Hpath & Hp & Hbefore & _).
        rewrite <- E in Hpath.
        rewrite (initNav_child_of d nav parentId before p s after
                   Hparent Hpath Hp Hbefore).
        simpl.
        now rewrite (initNav_child_of
                       (setSegments d
                          (before ++ p :: setNavId s (nav_id nav) :: after))
                       nav parentId before p
                       (setNavId s (nav_id nav)) after Hparent eq_refl Hp Hbefore).
      * assert (Hd : initNav nav d = (None, d))
          by (unfold initNav; now rewrite E, Hparent, Eloop).
        rewrite Hd. simpl. exact Hd.
    + rewrite (initNav_root d nav first rest Hparent E). simpl.
      now rewrite (initNav_root
                     (setSegments d (setNavId first (nav_id nav) :: rest))
                     nav (setNavId first (nav_id nav)) rest Hparent eq_refl).
Qed.

(** X10: when no segment but possibly the last is owned by the
    controller's parent, or the path is empty, the controller is
    attributed nothing and the linker is left as it is. *)
Theorem initNav_nothing_to_attribute d nav :
  (_segments d = [] -> initNav nav d = (None, d)) /\
  (forall parentId,
      nav_parent nav = Some parentId ->
      (forall before p s after,
          _segments d = before ++ p :: s :: after ->
          seg_navId p <> Some parentId) ->
      initNav nav d = (None, d)).
Proof.
  split.
  - intros Hpath. unfold initNav. now rewrite Hpath.
  - intros parentId Hparent Hnone. unfold initNav. rewrite Hparent.
    destruct (_segments d) as [|first rest] eqn:E; [reflexivity|].
    pose proof (initNavLoop_spec (nav_id nav) parentId rest first) as Hloop.
    destruct (initNavLoop (nav_id nav) parentId first rest)
      as [[found rest']|]; [|reflexivity].
    destruct Hloop as (before & p & s & after & Hpath & Hp & _).
    destruct (Hnone before p s after Hpath Hp).
Qed.

Lemma initNav_erased nav d :
  map eraseNavId (_segments (snd (initNav nav d)))
  = map eraseNavId (_segments d).
Proof.
  unfold initNav. destruct (_segments d) as [|first rest] eqn:E;
    [simpl; now rewrite E|].
  destruct (nav_parent nav) as [parentId|]; [|reflexivity].
  pose proof (initNavLoop_spec (nav_id nav) parentId rest first) as Hloop.
  destruct (initNavLoop (nav_id nav) parentId first rest) as [[found rest']|];
    [|simpl; now rewrite E].
  destruct Hloop as (before & p & s & after & Hpath & _ & _ & _ & Hrest').
  change (map eraseNavId (first :: rest') = map eraseNavId (first :: rest)).
  rewrite Hrest', Hpath, !map_app. simpl. now rewrite eraseNavId_setNavId.
Qed.

Lemma _loadViewFromSegment_erased nav d :
  map eraseNavId (_segments (fst (_loadViewFromSegment nav d)))
  = map eraseNavId (_segments d).
Proof.
  unfold _loadViewFromSegment.
  pose proof (initNav_erased nav d) as H.
  destruct (initNav nav d) as [[segment|] d']; simpl in *; [|exact H].
  destruct (nav_body nav); [|exact H].
  now destruct (walkBackwards _ _ _ _).
Qed.

Lemma _loadViewFromSegment_quiet nav d :
  Forall reconcileEffect (snd (_loadViewFromSegment nav d)).
Proof.
  unfold _loadViewFromSegment.
  destruct (initNav nav d) as [[segment|] d']; simpl; [|constructor].
  destruct (nav_body nav) as [views|tabs].
  - set (count := (len views - 1)%Z). generalize (Z.to_nat (count + 1)).
    intros n.
    assert (Hwalk : forall calls,
               walkBackwards views segment count n = Some calls ->
               Forall reconcileEffect (map (onNav (nav_id nav)) calls)).
    { induction n as [|i IH]; intros calls; [discriminate|].
      rewrite walkBackwards_step.
      destruct (nth_error views i) as [view|]; [|exact (IH calls)].
      destruct (strictEqOpt (view_id view) (seg_id segment)); [|exact (IH calls)].
      intros [= <-]. destruct (Z.of_nat i =? count)%Z; simpl; repeat constructor. }
    destruct (walkBackwards views segment count n) as [calls|] eqn:E; simpl.
    + now apply Hwalk.
    + repeat constructor.
  - simpl. repeat constructor.
Qed.

Lemma _loadNavFromPath_quiet nav d :
  Forall reconcileEffect (snd (_loadNavFromPath nav d)).
Proof.
  revert d. induction nav as [id parent body|id parent body child IH]
    using NavInstance_chain_ind; intros d; simpl.
  - pose proof (_loadViewFromSegment_quiet (mkNav id parent body None) d) as H.
    now destruct (_loadViewFromSegment _ d).
  - pose proof (_loadViewFromSegment_quiet
                  (mkNav id parent body (Some child)) d) as H.
    destruct (_loadViewFromSegment _ d) as [d1 effects]. simpl in H.
    specialize (IH d1). destruct (_loadNavFromPath child d1) as [d2 effects'].
    simpl in *. apply Forall_app. now split.
Qed.

Lemma _loadNavFromPath_erased nav d :
  map eraseNavId (_segments (fst (_loadNavFromPath nav d)))
  = map eraseNavId (_segments d).
Proof.
  revert d. induction nav as [id parent body|id parent body child IH]
    using NavInstance_chain_ind; intros d; simpl.
  - pose proof (_loadViewFromSegment_erased (mkNav id parent body None) d) as H.
    now destruct (_loadViewFromSegment _ d).
  - pose proof (_loadViewFromSegment_erased
                  (mkNav id parent body (Some child)) d) as H.
    destruct (_loadViewFromSegment _ d) as [d1 effects]. simpl in H.
    specialize (IH d1). destruct (_loadNavFromPath child d1) as [d2 effects'].
    simpl in *. now rewrite IH.
Qed.

(** X11: the walk down the controllers only ever selects, pops or
    pushes, each time with [animate: false] and [updateUrl: false]; it
    parses nothing and never touches the location. In the linker it
    changes the owners written on the segments and nothing else. *)
Theorem _loadNavFromPath_is_quiet nav d :
  Forall reconcileEffect (snd (_loadNavFromPath nav d)) /\
  map eraseNavId (_segments (fst (_loadNavFromPath nav d)))
  = map eraseNavId (_segments d) /\
  fst (_loadNavFromPath nav d)
  = setSegments d (_segments (fst (_loadNavFromPath nav d))).
Proof.
  split; [apply _loadNavFromPath_quiet|].
  split; [apply _loadNavFromPath_erased | apply _loadNavFromPath_fields].
Qed.

(** X12: with no segments to load, the walk does nothing at all,
    however deep the tree is. *)
Theorem _loadNavFromPath_empty_path nav d :
  _segments d = [] -> _loadNavFromPath nav d = (d, []).
Proof.
  revert d. induction nav as [id parent body|id parent body child IH]
    using NavInstance_chain_ind; intros d Hpath; simpl;
    unfold _loadViewFromSegment, initNav; rewrite Hpath; simpl.
  - reflexivity.
  - now rewrite (IH d Hpath).
Qed.

End LoaderExtras.

Lemma initNav_attribution_witness :
  initNav (stackNav []) (linkerAt [detailSegment])
  = (Some (setNavId detailSegment (js "n0")),
     linkerAt [setNavId detailSegment (js "n0")]) /\
  initNav (mkNav (js "n1") (Some (js "n0")) (NavStack []) None)
          (linkerAt [selectorSegment (js "home");
                     setNavId (selectorSegment (js "list")) (js "n0");
                     detailSegment;
                     selectorSegment (js "lazy")])
  = (Some (setNavId detailSegment (js "n1")),
     linkerAt [selectorSegment (js "home");
               setNavId (selectorSegment (js "list")) (js "n0");
               setNavId detailSegment (js "n1");
               selectorSegment (js "lazy")]).
Proof.
  split.
  - apply (proj1 (initNav_attribution (linkerAt [detailSegment]) (stackNav []))
                 detailSegment []); reflexivity.
  - apply (proj2 (initNav_attribution
                    (linkerAt [selectorSegment (js "home");
                               setNavId (selectorSegment (js "list")) (js "n0");
                               detailSegment;
                               selectorSegment (js "lazy")])
                    (mkNav (js "n1") (Some (js "n0")) (NavStack []) None))
                 (js "n0") [selectorSegment (js "home")]
                 (setNavId (selectorSegment (js "list")) (js "n0"))
                 detailSegment [selectorSegment (js "lazy")]);
      try reflexivity.
    intros q [<-|[]]. discriminate.
Defined.

Lemma initNav_nothing_to_attribute_witness :
  initNav (stackNav []) (linkerAt []) = (None, linkerAt []) /\
  initNav (mkNav (js "n1") (Some (js "n0")) (NavStack []) None)
          (linkerAt [setNavId detailSegment (js "n0")])
  = (None, linkerAt [setNavId detailSegment (js "n0")]).
Proof.
  split.
  - apply (proj1 (initNav_nothing_to_attribute (linkerAt []) (stackNav []))).
    reflexivity.
  - apply (proj2 (initNav_nothing_to_attribute
                    (linkerAt [setNavId detailSegment (js "n0")])
                    (mkNav (js "n1") (Some (js "n0")) (NavStack []) None))
                 (js "n0")); [reflexivity|].
    intros before p s after H. destruct before as [|? [|? ?]]; discriminate.
Defined.

Lemma _loadNavFromPath_empty_path_witness :
  _loadNavFromPath
    (mkNav (js "t0") None (TabsGroup [homeTab; settingsTab])
           (Some (stackNav [viewOf ListPage "list"])))
    (linkerAt [])
  = (linkerAt [], []).
Proof. apply _loadNavFromPath_empty_path. reflexivity. Defined.

(** ** Location changes, both ways *)

Section LocationExtras.

Context {Component Data : Type}.
Implicit Types d : @DeepLinker Component Data.
Implicit Types nav : @NavInstance Component Data.
Implicit Types u url direction : jsstring.

Lemma noRepeat_snoc (h : list jsstring) u :
  noRepeat h -> (forall pre, h <> pre ++ [u]) -> noRepeat (h ++ [u]).
Proof.
  intros Hh Hnew pre a b post Heq.
  destruct post as [|z post _] using rev_ind.
  - change (pre ++ [a; b]) with (pre ++ [a] ++ [b]) in Heq.
    rewrite app_assoc in Heq. apply app_inj_tail in Heq as [Hpre <-].
    intros ->. now apply (Hnew pre).
  - change (pre ++ a :: b :: post ++ [z])
      with (pre ++ (a :: b :: post) ++ [z]) in Heq.
    rewrite app_assoc in Heq. apply app_inj_tail in Heq as [Hpre _].
    now apply (Hh pre a b post).
Qed.

Lemma noRepeat_tl (h : list jsstring) : noRepeat h -> noRepeat (tl h).
Proof.
  intros Hh pre a b post Heq. destruct h as [|x h]; [now destruct pre|].
  simpl in Heq. apply (Hh (x :: pre) a b post). now rewrite Heq.
Qed.

Lemma noRepeat_removelast (h : list jsstring) :
  noRepeat h -> noRepeat (removelast h).
Proof.
  intros Hh pre a b post Heq.
  destruct h as [|z h _] using rev_ind; [now destruct pre|].
  rewrite removelast_last in Heq.
  apply (Hh pre a b (post ++ [z])). rewrite Heq, <- app_assoc. reflexivity.
Qed.

Lemma noRepeat_single (x : jsstring) : noRepeat [x].
Proof. intros [|? [|? ?]] a b post H; discriminate. Qed.

Lemma _historyPush_noRepeat d u :
  noRepeat (_history d) -> noRepeat (_history (_historyPush u d)).
Proof.
  intros Hh. rewrite _history_push.
  destruct (_isCurrentUrl d u) eqn:Hcur; [exact Hh|].
  pose proof (proj1 (_isCurrentUrl_false d u) Hcur) as Hnew.
  destruct (30 <? len (_history d ++ [u]))%Z;
    [apply noRepeat_tl|]; now apply noRepeat_snoc.
Qed.

Lemma _historyPop_noRepeat d :
  noRepeat (_history d) -> noRepeat (_history (_historyPop d)).
Proof.
  intros Hh. rewrite _history_pop.
  pose proof (noRepeat_removelast _ Hh) as Hr.
  destruct (removelast (_history d)); [apply noRepeat_single | exact Hr].
Qed.

Lemma _urlChange_top d u :
  exists pre, _history (fst (_urlChange u d)) = pre ++ [u].
Proof.
  destruct (_isCurrentUrl d u) eqn:Hcur.
  - unfold _urlChange. rewrite Hcur. simpl. now apply _isCurrentUrl_true.
  - rewrite (_urlChange_history d u Hcur).
    destruct (_isBackUrl d u) eqn:Hback; [|apply _historyPush_top].
    apply _isBackUrl_true in Hback as (pre & top & Hh).
    exists pre. rewrite _history_pop, Hh.
    change (pre ++ [u; top]) with (pre ++ [u] ++ [top]).
    rewrite app_assoc, removelast_last.
    now destruct (pre ++ [u]) eqn:E; [destruct pre|].
Qed.

(** The url [_updateLocation] works with: the root path in place of the
    index alias. *)
Lemma _updateLocation_cases d url direction :
  let url' :=
    if strictEqOpt (_indexAliasUrl d) url then js "/" else url in
  (_updateLocation url direction d = (_historyPop d, [locationBack]) /\
   direction = DIRECTION_BACK /\ _isBackUrl d url' = true) \/
  (_updateLocation url direction d
   = (_historyPush url' d, [locationGo url']) /\
   _isCurrentUrl d url' = false) \/
  (_updateLocation url direction d = (d, []) /\ _isCurrentUrl d url' = true).
Proof.
  cbv zeta. unfold _updateLocation.
  set (url' := if strictEqOpt (_indexAliasUrl d) url then js "/" else url).
  destruct (strictEq direction DIRECTION_BACK) eqn:Hdir; simpl.
  - apply strictEq_true_iff in Hdir.
    destruct (_isBackUrl d url') eqn:Hback; [now left|].
    destruct (_isCurrentUrl d url'); simpl; [right; right | right; left];
      now split.
  - destruct (_isCurrentUrl d url'); simpl; [right; right | right; left];
      now split.
Qed.

Lemma _updateLocation_top d url direction :
  exists pre,
    _history (fst (_updateLocation url direction d))
    = pre ++ [if strictEqOpt (_indexAliasUrl d) url then js "/" else url].
Proof.
  destruct (_updateLocation_cases d url direction)
    as [(-> & _ & Hback)|[(-> & _)|(-> & Hcur)]]; simpl.
  - apply _isBackUrl_true in Hback as (pre & top & Hh).
    exists pre. rewrite _history_pop, Hh.
    match goal with |- context [pre ++ [?x; top]] =>
      change (pre ++ [x; top]) with (pre ++ [x] ++ [top]) end.
    rewrite app_assoc, removelast_last.
    match goal with |- context [pre ++ [?x]] =>
      now destruct (pre ++ [x]) eqn:E; [destruct pre|] end.
  - apply _historyPush_top.
  - now apply _isCurrentUrl_true.
Qed.

Lemma _updateLocation_noRepeat d url direction :
  noRepeat (_history d) ->
  noRepeat (_history (fst (_updateLocation url direction d))).
Proof.
  intros Hh. destruct (_updateLocation_cases d url direction)
    as [(-> & _)|[(-> & _)|(-> & _)]]; simpl;
    [now apply _historyPop_noRepeat | now apply _historyPush_noRepeat
     | exact Hh].
Qed.

(** On a history without repeats the current url is not the back url. *)
Lemma current_not_back d u :
  noRepeat (_history d) ->
  _isCurrentUrl d u = true -> _isBackUrl d u = false.
Proof.
  intros Hh Hcur. apply _isBackUrl_false. intros pre top Hback.
  apply _isCurrentUrl_true in Hcur as [pre' Hcur]. rewrite Hback in Hcur.
  change (pre ++ [u; top]) with (pre ++ [u] ++ [top]) in Hcur.
  rewrite app_assoc in Hcur. apply app_inj_tail in Hcur as [_ ->].
  now apply (Hh pre u u []).
Qed.

(** X13: the history never holds the same url twice in a row: pushing,
    popping, a location change, a location update and [init] all keep
    it that way. *)
Theorem history_never_repeats d :
  noRepeat (_history d) ->
  (forall u, noRepeat (_history (_historyPush u d))) /\
  noRepeat (_history (_historyPop d)) /\
  (forall u, noRepeat (_history (fst (_urlChange u d)))) /\
  (forall url direction,
      noRepeat (_history (fst (_updateLocation url direction d)))) /\
  noRepeat (_history (fst (init d))).
Proof.
  intros Hh. split; [|split; [|split; [|split]]].
  - intros u. now apply _historyPush_noRepeat.
  - now apply _historyPop_noRepeat.
  - intros u. destruct (_isCurrentUrl d u) eqn:Hcur.
    + unfold _urlChange. now rewrite Hcur.
    + rewrite (_urlChange_history d u Hcur).
      destruct (_isBackUrl d u);
        [now apply _historyPop_noRepeat | now apply _historyPush_noRepeat].
  - intros url direction. now apply _updateLocation_noRepeat.
  - unfold init. cbv zeta. simpl. now apply _historyPush_noRepeat.
Qed.

(** X14: after a location change the url is on top of the history, back
    or forward alike; the same url delivered again is ignored. *)
Theorem _urlChange_settles d u :
  _isCurrentUrl (fst (_urlChange u d)) u = true /\
  _urlChange u (fst (_urlChange u d)) = (fst (_urlChange u d), []).
Proof.
  assert (Hcur : _isCurrentUrl (fst (_urlChange u d)) u = true)
    by (apply _isCurrentUrl_true, _urlChange_top).
  split; [exact Hcur|]. unfold _urlChange at 1. now rewrite Hcur.
Qed.

(** X15: going forward to a new url and then back to where one was
    leaves the history as it was before, below the cap. *)
Theorem _urlChange_forward_then_back d u pre top :
  _history d = pre ++ [top] -> top <> u ->
  (forall pre' x, _history d <> pre' ++ [u; x]) ->
  (List.length (_history d) < 30)%nat ->
  _history (fst (_urlChange u d)) = pre ++ [top; u] /\
  _history (fst (_urlChange top (fst (_urlChange u d)))) = pre ++ [top].
Proof.
  intros Hh Hneq Hnotback Hlen.
  assert (Hcur : _isCurrentUrl d u = false).
  { apply _isCurrentUrl_false. intros pre' H. rewrite Hh in H.
    apply app_inj_tail in H as [_ H]. now apply Hneq. }
  apply _isBackUrl_false in Hnotback.
  assert (Hfwd : _history (fst (_urlChange u d)) = pre ++ [top; u]).
  { rewrite (_urlChange_history d u Hcur), Hnotback, _history_push, Hcur.
    replace (30 <? len (_history d ++ [u]))%Z with false
      by (symmetry; apply Z.ltb_ge; unfold len; rewrite length_app; simpl; lia).
    rewrite Hh, <- app_assoc. reflexivity. }
  split; [exact Hfwd|].
  set (d1 := fst (_urlChange u d)) in *.
  assert (Hcur1 : _isCurrentUrl d1 top = false).
  { apply _isCurrentUrl_false. intros pre' H. rewrite Hfwd in H.
    change (pre ++ [top; u]) with (pre ++ [top] ++ [u]) in H.
    rewrite app_assoc in H. apply app_inj_tail in H as [_ H]. now apply Hneq. }
  assert (Hback1 : _isBackUrl d1 top = true)
    by (apply _isBackUrl_true; eauto).
  rewrite (_urlChange_history d1 top Hcur1), Hback1, _history_pop, Hfwd.
  change (pre ++ [top; u]) with (pre ++ [top] ++ [u]).
  rewrite app_assoc, removelast_last.
  now destruct (pre ++ [top]) eqn:E; [destruct pre|].
Qed.

Lemma _historyPop_app d : _app (_historyPop d) = _app d.
Proof. now rewrite _historyPop_fields. Qed.

Lemma _historyPush_fields d u :
  _historyPush u d = setHistory d (_history (_historyPush u d)).
Proof.
  unfold _historyPush. destruct (negb (_isCurrentUrl d u)); simpl.
  - now destruct (30 <? len (_history d ++ [u]))%Z.
  - now destruct d.
Qed.

(** The linker after the first step of [_urlChange]. *)
Lemma _urlChange_first_step d u :
  exists h, (if _isBackUrl d u then _historyPop d else _historyPush u d)
            = setHistory d h.
Proof.
  destruct (_isBackUrl d u).
  - eexists. apply _historyPop_fields.
  - eexists. apply _historyPush_fields.
Qed.

(** X16: a location change never writes to the location: it calls
    neither [location.back] nor [location.go], and every call it makes
    on a controller forbids the url update. *)
Theorem _urlChange_is_quiet d u :
  Forall quietEffect (snd (_urlChange u d)).
Proof.
  unfold _urlChange. destruct (negb (_isCurrentUrl d u)); [|constructor].
  cbv zeta.
  destruct (getRootNav (_app _)) as [root|]; [|constructor].
  assert (Hload : forall d1 url',
    Forall quietEffect
      (snd (let (d2, effects) := _loadNavFromPath root d1 in
            (d2, serializerParse url' :: effects)))).
  { intros d1 url'.
    pose proof (_loadNavFromPath_quiet root d1) as H.
    destruct (_loadNavFromPath root d1) as [d2 effects]. simpl in *.
    constructor; [exact I|].
    eapply Forall_impl; [|exact H].
    intros [navId [| | |]| | |]; simpl; tauto. }
  destruct (strictEq u (js "/")); [|apply Hload].
  destruct (_indexAliasUrl _); [apply Hload|].
  repeat constructor.
Qed.

(** X17: while the application has no root controller, a location
    change is recorded in the history and nothing else happens: no
    effect, and the segments stay as they are. *)
Theorem _urlChange_without_root d u :
  getRootNav (_app d) = None ->
  snd (_urlChange u d) = [] /\
  _segments (fst (_urlChange u d)) = _segments d /\
  _isCurrentUrl (fst (_urlChange u d)) u = true.
Proof.
  intros Hroot. split; [|split].
  - unfold _urlChange. destruct (negb (_isCurrentUrl d u)); [|reflexivity].
    cbv zeta. destruct (_urlChange_first_step d u) as [h ->]. simpl.
    now rewrite Hroot.
  - unfold _urlChange. destruct (negb (_isCurrentUrl d u)); [|reflexivity].
    cbv zeta. destruct (_urlChange_first_step d u) as [h ->]. simpl.
    now rewrite Hroot.
  - apply _isCurrentUrl_true, _urlChange_top.
Qed.


(** X19: after [_updateLocation] the url it worked with is on top of
    the history, and it made at most one call, on the location and on
    nothing else: [back()], or [go] with that url, or none when the url
    was current already. *)
Theorem _updateLocation_settles d url direction :
  let url' :=
    if strictEqOpt (_indexAliasUrl d) url then js "/" else url in
  _isCurrentUrl (fst (_updateLocation url direction d)) url' = true /\
  (snd (_updateLocation url direction d) = [locationBack] \/
   snd (_updateLocation url direction d) = [locationGo url'] \/
   _updateLocation url direction d = (d, [])).
Proof.
  cbv zeta. split.
  - apply _isCurrentUrl_true, _updateLocation_top.
  - destruct (_updateLocation_cases d url direction)
      as [(-> & _)|[(-> & _)|(-> & _)]]; simpl; tauto.
Qed.

(** Only the direction "back" can lead to [location.back()]: with
    any other direction a url that is not current is pushed and handed
    to [location.go], even when it equals the previous entry. *)
Theorem _updateLocation_not_back d url direction :
  direction <> DIRECTION_BACK ->
  let url' :=
    if strictEqOpt (_indexAliasUrl d) url then js "/" else url in
  (_isCurrentUrl d url' = false ->
   _updateLocation url direction d
   = (_historyPush url' d, [locationGo url'])) /\
  (_isCurrentUrl d url' = true -> _updateLocation url direction d = (d, [])).
Proof.
  intros Hdir. cbv zeta. unfold _updateLocation.
  replace (strictEq direction DIRECTION_BACK) with false
    by (symmetry; now apply strictEq_false_iff).
  simpl. split; now intros ->.
Qed.

(** X20: on a history without repeats, reporting the same navigation a
    second time does nothing. *)
Theorem _updateLocation_idempotent d url direction :
  noRepeat (_history d) ->
  _updateLocation url direction (fst (_updateLocation url direction d))
  = (fst (_updateLocation url direction d), []).
Proof.
  intros Hh.
  set (d1 := fst (_updateLocation url direction d)).
  assert (Halias : _indexAliasUrl d1 = _indexAliasUrl d).
  { unfold d1. destruct (_updateLocation_cases d url direction)
      as [(-> & _)|[(-> & _)|(-> & _)]]; simpl;
      [now rewrite _historyPop_fields | now rewrite _historyPush_fields
       | reflexivity]. }
  assert (Hrep : noRepeat (_history d1))
    by now apply _updateLocation_noRepeat.
  pose proof (_updateLocation_top d url direction) as Htop.
  fold d1 in Htop. apply _isCurrentUrl_true in Htop.
  rewrite <- Halias in Htop.
  destruct (_updateLocation_cases d1 url direction)
    as [(_ & _ & Hback)|[(_ & Hcur)|(Hsame & _)]].
  - rewrite (current_not_back d1 _ Hrep Htop) in Hback. discriminate.
  - rewrite Htop in Hcur. discriminate.
  - exact Hsame.
Qed.

(** X21: [init] leaves a history that ends with the normalised browser
    url; when the subscription then delivers that same location,
    nothing happens. *)
Theorem init_then_same_location d :
  (exists pre,
      _history (fst (init d)) = pre ++ [normalizeUrl (path (_location d))]) /\
  onLocationChange (path (_location d)) (fst (init d)) = (fst (init d), []).
Proof.
  unfold init, onLocationChange. cbv zeta. simpl.
  set (url := normalizeUrl (path (_location d))).
  set (d0 := setSegments d (parse (_serializer d) url)).
  pose proof (_historyPush_top d0 url) as [pre Htop]. split.
  - now exists pre.
  - unfold _urlChange.
    replace (_isCurrentUrl (_historyPush url d0) url) with true; [reflexivity|].
    symmetry. apply _isCurrentUrl_true. eauto.
Qed.

End LocationExtras.

Lemma noRepeat_cons (x y : jsstring) (t : list jsstring) :
  x <> y -> noRepeat (y :: t) -> noRepeat (x :: y :: t).
Proof.
  intros Hxy Ht [|z pre] a b post H.
  - simpl in H. now injection H as <- <- _.
  - simpl in H. injection H as _ H. now apply (Ht pre a b post).
Qed.

Lemma history_never_repeats_witness :
  noRepeat (_history (fst (_urlChange (js "/c")
                             (appLinker [js "/a"; js "/b"] None)))) /\
  noRepeat (_history (_historyPop (appLinker [js "/a"; js "/b"] None))).
Proof.
  assert (H : noRepeat (_history (appLinker [js "/a"; js "/b"] None))).
  { apply noRepeat_cons; [discriminate | apply noRepeat_single]. }
  destruct (history_never_repeats (appLinker [js "/a"; js "/b"] None) H)
    as (_ & Hpop & Hchange & _).
  split; [apply Hchange | exact Hpop].
Defined.

Lemma _urlChange_forward_then_back_witness :
  _history (fst (_urlChange (js "/detail/42") (appLinker [js "/list"] None)))
  = [js "/list"; js "/detail/42"] /\
  _history (fst (_urlChange (js "/list")
                   (fst (_urlChange (js "/detail/42")
                           (appLinker [js "/list"] None)))))
  = [js "/list"].
Proof.
  apply (_urlChange_forward_then_back (appLinker [js "/list"] None)
           (js "/detail/42") [] (js "/list")).
  - reflexivity.
  - discriminate.
  - intros [|? [|? ?]] x H; discriminate.
  - simpl. lia.
Defined.

Lemma _urlChange_without_root_witness :
  snd (_urlChange (js "/detail/42") (appLinker [js "/list"] None)) = [] /\
  _segments (fst (_urlChange (js "/detail/42") (appLinker [js "/list"] None)))
  = [] /\
  _isCurrentUrl (fst (_urlChange (js "/detail/42") (appLinker [js "/list"] None)))
                (js "/detail/42") = true.
Proof.
  apply (_urlChange_without_root (appLinker [js "/list"] None) (js "/detail/42")).
  reflexivity.
Defined.


Lemma _updateLocation_not_back_witness :
  _updateLocation (js "/list") (js "forward")
    (appLinker [js "/list"; js "/list/detail/12"] None)
  = (appLinker [js "/list"; js "/list/detail/12"; js "/list"] None,
     [locationGo (js "/list")]).
Proof.
  apply (proj1 (_updateLocation_not_back
                  (appLinker [js "/list"; js "/list/detail/12"] None)
                  (js "/list") (js "forward") ltac:(discriminate))).
  reflexivity.
Defined.

Lemma _updateLocation_idempotent_witness :
  _updateLocation (js "/list/detail/12") (js "forward")
    (fst (_updateLocation (js "/list/detail/12") (js "forward")
            (appLinker [js "/list"] None)))
  = (appLinker [js "/list"; js "/list/detail/12"] None, []).
Proof.
  apply (_updateLocation_idempotent (appLinker [js "/list"] None)
           (js "/list/detail/12") (js "forward")).
  apply noRepeat_single.
Defined.

(** ** Component lookup *)

Section LookupExtras.

Context {Component Data : Type}.
Implicit Types d : @DeepLinker Component Data.
Implicit Types link : @NavLink Component.
Implicit Types segment : @NavSegment Component Data.

(** X22: a link that resolved keeps its component: asked again, with any
    module loader, it resolves to the same component without a load and
    is left as it is. A link whose lookup was rejected is unchanged, so
    asking again asks the loader again. The name of a link never
    changes. *)
Theorem getNavLinkComponent_caches d link :
  (forall link' component,
      getNavLinkComponent d link = (link', Resolved component) ->
      forall d' : @DeepLinker Component Data,
        getNavLinkComponent d' link' = (link', Resolved component)) /\
  (forall link' reason,
      getNavLinkComponent d link = (link', Rejected reason) -> link' = link) /\
  link_name (fst (getNavLinkComponent d link)) = link_name link.
Proof.
  unfold getNavLinkComponent.
  destruct (link_component link) as [c|] eqn:Hc.
  - split; [|split; [discriminate | reflexivity]].
    intros link' component [= <- <-] d'. now rewrite Hc.
  - destruct (link_loadChildren link) as [[|x locator]|].
    + split; [discriminate | split; [now intros ? ? [= <- _] | reflexivity]].
    + destruct (load (_moduleLoader d) (x :: locator)) as [c|reason].
      * split; [|split; [discriminate | reflexivity]].
        now intros link' component [= <- <-] d'.
      * split; [discriminate | split; [now intros ? ? [= <- _] | reflexivity]].
    + split; [discriminate | split; [now intros ? ? [= <- _] | reflexivity]].
Qed.

(** A lazily loaded link: the loader is asked for the link's
    locator and what it answers is the answer, component or rejection;
    an empty locator counts as none. *)
Theorem getNavLinkComponent_lazy d link :
  link_component link = None ->
  (forall locator,
      link_loadChildren link = Some locator -> locator <> [] ->
      snd (getNavLinkComponent d link) = load (_moduleLoader d) locator) /\
  (link_loadChildren link = Some [] ->
   snd (getNavLinkComponent d link)
   = Rejected (js "invalid link component: " ++ link_name link)).
Proof.
  intros Hc. unfold getNavLinkComponent. rewrite Hc. split.
  - intros locator -> Hne. destruct locator as [|x locator]; [contradiction|].
    now destruct (load (_moduleLoader d) (x :: locator)).
  - now intros ->.
Qed.

(** X23: [initViews] on a segment without default history whose link
    is loaded lazily: when the load succeeds, the result is one view,
    made of the loaded component, tagged with the segment's id and
    holding the segment's data when the segment has data, and the
    segment remembers the component; when the load fails, [initViews]
    is rejected with the loader's reason and the segment is
    untouched. *)
Theorem initViews_lazy d segment link locator :
  getLinkFromName (_serializer d) (seg_name segment) = Some link ->
  link_component link = None ->
  link_loadChildren link = Some locator -> locator <> [] ->
  seg_defaultHistory segment = None ->
  (forall component,
      load (_moduleLoader d) locator = Resolved component ->
      exists view,
        initViews d segment
        = Normal (setSegComponent segment component, Resolved [view]) /\
        view_component view = Some component /\
        view_id view = Some (seg_id segment) /\
        forall data, seg_data segment = Some data ->
                     view_data view = Some data) /\
  (forall reason,
      load (_moduleLoader d) locator = Rejected reason ->
      initViews d segment = Normal (segment, Rejected reason)).
Proof.
  intros Hlink Hc Hl Hne Hh.
  assert (Hload : snd (getNavLinkComponent d link)
                  = load (_moduleLoader d) locator).
  { unfold getNavLinkComponent. rewrite Hc, Hl.
    destruct locator as [|x locator]; [contradiction|].
    now destruct (load (_moduleLoader d) (x :: locator)). }
  unfold initViews. rewrite Hlink, Hload. split.
  - intros component ->. simpl. rewrite Hh.
    eexists. split; [reflexivity|]. split; [reflexivity|].
    split; [reflexivity|]. now intros data ->.
  - now intros reason ->.
Qed.

End LookupExtras.

Lemma getNavLinkComponent_lazy_witness :
  snd (getNavLinkComponent (appLinker [] None)
         {| link_name := js "lazy"; link_component := None;
            link_loadChildren := Some (js "lazy.module#LazyPageModule") |})
  = Resolved LazyPage /\
  snd (getNavLinkComponent (appLinker [] None)
         {| link_name := js "empty"; link_component := @None Page;
            link_loadChildren := Some [] |})
  = Rejected (js "invalid link component: empty").
Proof.
  split.
  - apply (proj1 (getNavLinkComponent_lazy (appLinker [] None)
                    {| link_name := js "lazy"; link_component := None;
                       link_loadChildren :=
                         Some (js "lazy.module#LazyPageModule") |} eq_refl)
                 (js "lazy.module#LazyPageModule")); [reflexivity | discriminate].
  - apply (proj2 (getNavLinkComponent_lazy (appLinker [] None)
                    {| link_name := js "empty"; link_component := None;
                       link_loadChildren := Some [] |} eq_refl)).
    reflexivity.
Defined.

Lemma getNavLinkComponent_caches_witness :
  getNavLinkComponent (appLinker [] None)
    {| link_name := js "lazy"; link_component := Some LazyPage;
       link_loadChildren := Some (js "lazy.module#LazyPageModule") |}
  = ({| link_name := js "lazy"; link_component := Some LazyPage;
        link_loadChildren := Some (js "lazy.module#LazyPageModule") |},
     Resolved LazyPage).
Proof.
  apply (proj1 (getNavLinkComponent_caches (appLinker [] None)
                  {| link_name := js "lazy"; link_component := None;
                     link_loadChildren :=
                       Some (js "lazy.module#LazyPageModule") |})).
  reflexivity.
Defined.

Lemma initViews_lazy_witness :
  initViews (appLinker [] None)
    {| seg_id := js "lazy/42"; seg_name := js "lazy";
       seg_component := None; seg_data := Some [(js "id", js "42")];
       seg_navId := None; seg_defaultHistory := None |}
  = Normal ({| seg_id := js "lazy/42"; seg_name := js "lazy";
               seg_component := Some LazyPage;
               seg_data := Some [(js "id", js "42")];
               seg_navId := None; seg_defaultHistory := None |},
            Resolved [ {| view_component := Some LazyPage;
                          view_data := Some [(js "id", js "42")];
                          view_id := Some (js "lazy/42") |} ]).
Proof.
  destruct (proj1 (initViews_lazy (appLinker [] None)
                     {| seg_id := js "lazy/42"; seg_name := js "lazy";
                        seg_component := None;
                        seg_data := Some [(js "id", js "42")];
                        seg_navId := None; seg_defaultHistory := None |}
                     {| link_name := js "lazy"; link_component := None;
                        link_loadChildren :=
                          Some (js "lazy.module#LazyPageModule") |}
                     (js "lazy.module#LazyPageModule")
                     eq_refl eq_refl eq_refl ltac:(discriminate) eq_refl)
                  LazyPage eq_refl)
    as (view & Hviews & Hcomponent & Hid & Hdata).
  rewrite Hviews. destruct view as [component data id]. simpl in *.
  now rewrite Hcomponent, Hid, (Hdata _ eq_refl).
Defined.

(** ** Tab selectors, there and back *)

Lemma parseInt_from (digits : jsstring) (acc c : N) :
  fold_left (fun acc c => (acc * 10 + (c - 48))%N) (c :: digits) acc
  = fold_left (fun acc c => (acc * 10 + (c - 48))%N) digits
              (acc * 10 + (c - 48))%N.
Proof. reflexivity. Qed.

(** Reading the digits written in front of [acc] from 0 is reading
    [acc] from [n]. *)
Lemma decimalDigits_read (fuel : nat) :
  forall (n : N) (acc : jsstring),
    (n < 2 ^ N.of_nat (S fuel))%N ->
    fold_left (fun acc c => (acc * 10 + (c - 48))%N)
              (decimalDigits (S fuel) n acc) 0%N
    = fold_left (fun acc c => (acc * 10 + (c - 48))%N) acc n.
Proof.
  assert (Hdigit : forall n acc,
    fold_left (fun acc c => (acc * 10 + (c - 48))%N)
              ((48 + n mod 10)%N :: acc) (n / 10)%N
    = fold_left (fun acc c => (acc * 10 + (c - 48))%N) acc n).
  { intros n acc. rewrite parseInt_from. f_equal.
    assert (Hsub : forall m : N, (48 + m - 48 = m)%N) by (intros; lia).
    rewrite Hsub, N.mul_comm. symmetry. now apply N.div_mod. }
  induction fuel as [|fuel IH]; intros n acc Hn.
  - change (decimalDigits 1 n acc)
      with (if (n / 10 =? 0)%N then (48 + n mod 10)%N :: acc
            else (48 + n mod 10)%N :: acc).
    assert (Hsmall : (n / 10 = 0)%N)
      by (apply N.div_small; change (2 ^ N.of_nat 1)%N with 2%N in Hn; lia).
    rewrite <- (Hdigit n acc), Hsmall. now destruct (0 =? 0)%N.
  - change (decimalDigits (S (S fuel)) n acc)
      with (if (n / 10 =? 0)%N then (48 + n mod 10)%N :: acc
            else decimalDigits (S fuel) (n / 10) ((48 + n mod 10)%N :: acc)).
    destruct (N.eqb_spec (n / 10) 0) as [Hsmall|_].
    + now rewrite <- (Hdigit n acc), Hsmall.
    + rewrite IH; [apply Hdigit|].
      apply N.Div0.div_lt_upper_bound.
      replace (N.of_nat (S (S fuel))) with (N.succ (N.of_nat (S fuel))) in Hn
        by lia.
      rewrite N.pow_succ_r' in Hn. lia.
Qed.

Lemma decimalDigits_allDigits (fuel : nat) :
  forall (n : N) (acc : jsstring),
    allDigits acc -> allDigits (decimalDigits fuel n acc).
Proof.
  induction fuel as [|fuel IH]; intros n acc Hacc; [exact Hacc|].
  change (decimalDigits (S fuel) n acc)
    with (if (n / 10 =? 0)%N then (48 + n mod 10)%N :: acc
          else decimalDigits fuel (n / 10) ((48 + n mod 10)%N :: acc)).
  assert (Hd : allDigits ((48 + n mod 10)%N :: acc)).
  { constructor; [|exact Hacc]. unfold isDigit.
    pose proof (N.mod_upper_bound n 10 ltac:(discriminate)) as Hm.
    generalize dependent (n mod 10)%N. intros m Hm.
    apply andb_true_iff. split; apply N.leb_le; lia. }
  destruct (n / 10 =? 0)%N; [exact Hd | now apply IH].
Qed.

Lemma decimalDigits_nonempty (fuel : nat) :
  forall (n : N) (acc : jsstring), decimalDigits (S fuel) n acc <> [].
Proof.
  induction fuel as [|fuel IH]; intros n acc.
  - change (decimalDigits 1 n acc)
      with (if (n / 10 =? 0)%N then (48 + n mod 10)%N :: acc
            else (48 + n mod 10)%N :: acc).
    now destruct (n / 10 =? 0)%N.
  - change (decimalDigits (S (S fuel)) n acc)
      with (if (n / 10 =? 0)%N then (48 + n mod 10)%N :: acc
            else decimalDigits (S fuel) (n / 10) ((48 + n mod 10)%N :: acc)).
    destruct (n / 10 =? 0)%N; [discriminate | apply IH].
Qed.

Lemma numberToString_read (n : N) : mathInt (numberToString n) = n.
Proof.
  unfold mathInt, numberToString. rewrite decimalDigits_read; [reflexivity|].
  destruct (N.eq_dec n 0) as [->|Hn]; [reflexivity|].
  replace (N.of_nat (S (N.to_nat (N.log2 n)))) with (N.succ (N.log2 n)) by lia.
  apply N.log2_spec. lia.
Qed.

Lemma takeDigits_all (digits : jsstring) :
  allDigits digits -> takeDigits digits = digits.
Proof.
  induction 1 as [|c digits Hc _ IH]; simpl; [reflexivity|].
  now rewrite Hc, IH.
Qed.

Lemma indexMatch_positional (digits : jsstring) :
  digits <> [] -> allDigits digits ->
  indexMatch (js "tab-" ++ digits) = Some digits.
Proof.
  intros Hne Hall. rewrite indexMatch_step.
  assert (Hm : matchHere (js "tab-" ++ digits) = Some digits).
  { unfold matchHere.
    rewrite (proj2 (stripPrefix_Some (js "tab-") (js "tab-" ++ digits) digits)
                   eq_refl).
    rewrite (takeDigits_all digits Hall). now destruct digits. }
  now rewrite Hm.
Qed.

Section SelectorExtras.

Context {Component Data : Type}.
Implicit Types d : @DeepLinker Component Data.

(** X24: a tab with neither a url path nor a title is written as
    [tab-<index>], and that selector leads back to the tab's index
    whatever the tabs and the fallback are. *)
Theorem tab_selector_by_position d (tab : Tab) :
  tabUrlPath tab = None -> tabTitle tab = None ->
  _getTabSelector d tab = js "tab-" ++ numberToString (tab_index tab) /\
  forall (tabs : list Tab) fallback,
    getSelectedTabIndex d tabs (_getTabSelector d tab) fallback = tab_index tab.
Proof.
  intros Hpath Htitle.
  assert (Hsel : _getTabSelector d tab
                 = js "tab-" ++ numberToString (tab_index tab))
    by (unfold _getTabSelector; now rewrite Hpath, Htitle).
  split; [exact Hsel|]. intros tabs fallback.
  unfold getSelectedTabIndex. rewrite Hsel, indexMatch_positional.
  - unfold parseInt. rewrite numberToString_read.
    apply toNumber_safe, N.ltb_lt, tab_index_safe.
  - apply decimalDigits_nonempty.
  - apply decimalDigits_allDigits. constructor.
Qed.

(** X25: a tab with a url path is written by that path, and a tab with
    a title and no url path by its formatted title; the name leads back
    to the tab's index when it holds no [tab-<digits>] and no earlier
    tab of the container answers to it. *)
Theorem tab_selector_by_name d (before after : list Tab) (tab : Tab) fallback :
  (forall urlPath,
      tabUrlPath tab = Some urlPath -> _getTabSelector d tab = urlPath) /\
  (forall title,
      tabUrlPath tab = None -> tabTitle tab = Some title ->
      _getTabSelector d tab = formatUrlPart (_serializer d) title) /\
  (tabUrlPath tab <> None \/ tabTitle tab <> None ->
   ~ containsTabIndex (_getTabSelector d tab) ->
   (forall t, In t before -> ~ tabNamed d (_getTabSelector d tab) t) ->
   getSelectedTabIndex d (before ++ tab :: after) (_getTabSelector d tab)
                       fallback
   = tab_index tab).
Proof.
  split; [|split].
  - intros urlPath Hpath. unfold _getTabSelector. now rewrite Hpath.
  - intros title Hpath Htitle. unfold _getTabSelector.
    now rewrite Hpath, Htitle.
  - intros Hnamed Hindex Hbefore.
    apply (proj1 (getSelectedTabIndex_by_number_free d _ _ fallback Hindex)
                 before tab after eq_refl); [|exact Hbefore].
    unfold tabNamed, _getTabSelector.
    destruct (tabUrlPath tab) as [urlPath|]; [now left|].
    destruct (tabTitle tab) as [title|]; [right; eauto|].
    now destruct Hnamed.
Qed.

End SelectorExtras.

Lemma tab_selector_by_position_witness :
  _getTabSelector (appLinker [] None)
    {| tabUrlPath := None; tabTitle := None; tab_index := 12;
       tab_index_safe := eq_refl |}
  = js "tab-12" /\
  getSelectedTabIndex (appLinker [] None) [homeTab; settingsTab]
    (_getTabSelector (appLinker [] None)
       {| tabUrlPath := None; tabTitle := None; tab_index := 12;
       tab_index_safe := eq_refl |}) 0
  = 12%N.
Proof.
  destruct (tab_selector_by_position (appLinker [] None)
              {| tabUrlPath := None; tabTitle := None; tab_index := 12;
       tab_index_safe := eq_refl |}
              eq_refl eq_refl) as [Hsel Hback].
  split; [exact Hsel | apply Hback].
Defined.

Lemma tab_selector_by_name_witness :
  _getTabSelector (appLinker [] None) settingsTab = js "settings" /\
  _getTabSelector (appLinker [] None)
    {| tabUrlPath := None; tabTitle := Some (js "Settings");
       tab_index := 1; tab_index_safe := eq_refl |}
  = js "settings" /\
  getSelectedTabIndex (appLinker [] None) ([homeTab] ++ settingsTab :: [])
    (_getTabSelector (appLinker [] None) settingsTab) 0
  = 1%N.
Proof.
  split; [|split].
  - apply (proj1 (tab_selector_by_name (appLinker [] None) [] [] settingsTab 0)
                 (js "settings") eq_refl).
  - apply (proj1 (proj2 (tab_selector_by_name (appLinker [] None) [] []
                           {| tabUrlPath := None;
                              tabTitle := Some (js "Settings");
                              tab_index := 1; tab_index_safe := eq_refl |} 0))
                 (js "Settings") eq_refl eq_refl).
  - apply (proj2 (proj2 (tab_selector_by_name (appLinker [] None)
                           [homeTab] [] settingsTab 0))).
    + left. discriminate.
    + apply indexMatch_None. reflexivity.
    + intros t [<-|[]] Ht. apply tabMatches_true in Ht. discriminate.
Defined.

(** ** Path builder *)

Section PathExtras.

Context {Component Data : Type}.
Implicit Types d : @DeepLinker Component Data.
Implicit Types ps : @PathSerializer Component Data.
Implicit Types nav : @NavNode Component Data.

(** One turn of the loop. *)
Lemma climb_step d ps isNav getActive tab parent component data :
  climb d ps (mkNode isNav getActive tab parent) component data =
  match serializeComponent ps
          (fst (componentAt (mkNode isNav getActive tab parent) component data))
          (snd (componentAt (mkNode isNav getActive tab parent) component data))
  with
  | None => []
  | Some segment =>
      match tab with
      | Some t =>
          segment :: tabSelectorSegment (_getTabSelector d t) ::
          match node_grandparent (mkNode isNav getActive tab parent) with
          | Some grandparent => climb d ps grandparent None None
          | None => []
          end
      | None =>
          segment ::
          match parent with
          | Some parent => climb d ps parent None None
          | None => []
          end
      end
  end.
Proof.
  change (climb d ps (mkNode isNav getActive tab parent) component data)
    with (let (c, dt) := componentAt (mkNode isNav getActive tab parent)
                                     component data in
          match serializeComponent ps c dt with
          | None => []
          | Some s =>
              match tab with
              | Some t =>
                  s :: tabSelectorSegment (_getTabSelector d t) ::
                  match parent with
                  | Some (mkNode _ _ _ (Some g)) => climb d ps g None None
                  | _ => []
                  end
              | None =>
                  s :: match parent with
                       | Some p => climb d ps p None None
                       | None => []
                       end
              end
          end).
  destruct (componentAt _ component data) as [c dt]. simpl.
  destruct (serializeComponent ps c dt); [|reflexivity].
  destruct tab; [|reflexivity].
  now destruct parent as [[? ? ? [g|]]|].
Qed.

Lemma _pathFromNavs_own_last d ps isNav getActive parent component data segment :
  serializeComponent ps
    (fst (componentAt (mkNode isNav getActive None parent) component data))
    (snd (componentAt (mkNode isNav getActive None parent) component data))
  = Some segment ->
  _pathFromNavs d ps (Some (mkNode isNav getActive None parent)) component data
  = _pathFromNavs d ps parent None None ++ [segment].
Proof.
  intros Hseg. unfold _pathFromNavs. rewrite climb_step, Hseg.
  now destruct parent.
Qed.

Lemma _pathFromNavs_nothing d ps nav component data :
  serializeComponent ps (fst (componentAt nav component data))
                        (snd (componentAt nav component data)) = None ->
  _pathFromNavs d ps (Some nav) component data = [].
Proof.
  intros Hseg. unfold _pathFromNavs. destruct nav as [isNav getActive tab parent].
  now rewrite climb_step, Hseg.
Qed.

(** X26: the path is written root first. A controller's own segment is
    the last one, behind the segments of its ancestors; a tab puts the
    segment of its selector just before its page and continues above
    the tabs container, which adds nothing. *)
Theorem _pathFromNavs_root_first d ps isNav getActive tab parent component data
        segment :
  let nav := mkNode isNav getActive tab parent in
  serializeComponent ps (fst (componentAt nav component data))
                        (snd (componentAt nav component data)) = Some segment ->
  (tab = None ->
   _pathFromNavs d ps (Some nav) component data
   = _pathFromNavs d ps parent None None ++ [segment]) /\
  (forall t, tab = Some t ->
   _pathFromNavs d ps (Some nav) component data
   = _pathFromNavs d ps (node_grandparent nav) None None
     ++ [tabSelectorSegment (_getTabSelector d t); segment]).
Proof.
  cbv zeta. intros Hseg. split.
  - intros ->. now apply _pathFromNavs_own_last.
  - intros t ->. unfold _pathFromNavs. rewrite climb_step, Hseg.
    destruct (node_grandparent _) as [g|]; simpl;
      rewrite <- ?app_assoc; reflexivity.
Qed.

(** X27: a controller whose page cannot be serialized ends the path.
    Started there the path is empty.  Reached from a controller below
    that is no tab, as its parent, it leaves the path with that
    controller's segment alone.  A tab continues above its tabs
    container, which is never serialized: it is the controller above the
    container that, failing, leaves the path with the tab's selector and
    the tab's segment. *)
Theorem _pathFromNavs_stops d ps nav component data :
  serializeComponent ps (fst (componentAt nav component data))
                        (snd (componentAt nav component data)) = None ->
  _pathFromNavs d ps (Some nav) component data = [] /\
  (component = None -> data = None ->
   forall isNav getActive component' data' segment,
     serializeComponent ps
       (fst (componentAt (mkNode isNav getActive None (Some nav))
                         component' data'))
       (snd (componentAt (mkNode isNav getActive None (Some nav))
                         component' data'))
     = Some segment ->
     _pathFromNavs d ps (Some (mkNode isNav getActive None (Some nav)))
                   component' data'
     = [segment]) /\
  (component = None -> data = None ->
   forall isNav getActive tab tabs component' data' segment,
     node_parent tabs = Some nav ->
     serializeComponent ps
       (fst (componentAt (mkNode isNav getActive (Some tab) (Some tabs))
                         component' data'))
       (snd (componentAt (mkNode isNav getActive (Some tab) (Some tabs))
                         component' data'))
     = Some segment ->
     _pathFromNavs d ps (Some (mkNode isNav getActive (Some tab) (Some tabs)))
                   component' data'
     = [tabSelectorSegment (_getTabSelector d tab); segment]).
Proof.
  intros Hseg. split; [now apply _pathFromNavs_nothing|]. split.
  - intros -> -> isNav getActive component' data' segment Hchild.
    rewrite (_pathFromNavs_own_last d ps isNav getActive (Some nav)
               component' data' segment Hchild).
    now rewrite (_pathFromNavs_nothing d ps nav None None Hseg).
  - intros -> -> isNav getActive tab tabs component' data' segment Htabs Hchild.
    pose proof (_pathFromNavs_nothing d ps nav None None Hseg) as Hcut.
    unfold _pathFromNavs in *. rewrite climb_step, Hchild.
    change (node_grandparent (mkNode isNav getActive (Some tab) (Some tabs)))
      with (node_parent tabs).
    rewrite Htabs.
    apply (f_equal (@rev _)) in Hcut. rewrite rev_involutive in Hcut.
    now rewrite Hcut.
Qed.

(** With a component handed in, the path does not depend on what
    the starting controller shows: the url of a page about to be pushed
    is written from that page. *)
Theorem _pathFromNavs_uses_override d ps isNav getActive tab parent
        (component : Component) data isNav' getActive' :
  _pathFromNavs d ps (Some (mkNode isNav getActive tab parent))
                (Some component) data
  = _pathFromNavs d ps (Some (mkNode isNav' getActive' tab parent))
                  (Some component) data.
Proof.
  unfold _pathFromNavs. now rewrite !climb_step.
Qed.

(** X28: [createUrl] for a page whose segment has no component yet (a
    lazy page not loaded so far), asked on a nav that shows a view:
    the component and the data of that view are used, and the data
    handed in are dropped, so the url is the one of the page shown. *)
Theorem createUrl_without_component ps d getActive tab parent view
        nameOrComponent data external segment :
  createSegmentFromName ps nameOrComponent = Some segment ->
  seg_component segment = None ->
  getActive = Some view ->
  createUrl ps d (Some (mkNode true getActive tab parent))
            nameOrComponent data external
  = (if external then prepareExternalUrl ps else fun url => url)
      (serialize ps
         (_pathFromNavs d ps (Some (mkNode true getActive tab parent))
                        None None)).
Proof.
  intros Hname Hc ->. unfold createUrl, _pathFromNavs.
  rewrite Hname, Hc. cbv zeta. rewrite !climb_step. simpl.
  now destruct external.
Qed.

Lemma _updateLocation_fields d url direction :
  fst (_updateLocation url direction d)
  = setHistory d (_history (fst (_updateLocation url direction d))).
Proof.
  destruct (_updateLocation_cases d url direction)
    as [(-> & _)|[(-> & _)|(-> & _)]]; simpl.
  - apply _historyPop_fields.
  - apply _historyPush_fields.
  - now destruct d.
Qed.

(** X29: the url the linker itself sent to the location, delivered back
    by the browser, is ignored.  The subscription normalises what the
    browser reports, so this is for a url in normal form: after
    [_updateLocation], a location change to the url it worked with has
    no effect. *)
Theorem _updateLocation_echo_ignored d url direction :
  let url' :=
    if strictEqOpt (_indexAliasUrl d) url then js "/" else url in
  normalizeUrl url' = url' ->
  onLocationChange url' (fst (_updateLocation url direction d))
  = (fst (_updateLocation url direction d), []).
Proof.
  cbv zeta. intros Hnormal. unfold onLocationChange. rewrite Hnormal.
  unfold _urlChange.
  replace (_isCurrentUrl (fst (_updateLocation url direction d)) _) with true;
    [reflexivity|].
  symmetry. apply _isCurrentUrl_true, _updateLocation_top.
Qed.

(** X30: [navChange] does nothing without a direction or without an
    active nav. Otherwise the segments become the path of the active
    nav, the url of that path, with the index alias replaced by the
    root path, ends up on top of the history, and at most one call is
    made, on the location. *)
Theorem navChange_settles ps (activeNav : option NavNode) direction d :
  (direction = None \/ direction = Some [] \/ activeNav = None ->
   navChange ps activeNav direction d = (d, [])) /\
  (forall nav dir,
      activeNav = Some nav -> direction = Some dir -> dir <> [] ->
      let path := _pathFromNavs d ps (Some nav) None None in
      let url' :=
        if strictEqOpt (_indexAliasUrl d) (serialize ps path)
        then js "/" else serialize ps path in
      _segments (fst (navChange ps activeNav direction d)) = path /\
      _isCurrentUrl (fst (navChange ps activeNav direction d)) url' = true /\
      (snd (navChange ps activeNav direction d) = [locationBack] \/
       snd (navChange ps activeNav direction d) = [locationGo url'] \/
       snd (navChange ps activeNav direction d) = [])).
Proof.
  split.
  - intros [-> | [-> | ->]]; [reflexivity | reflexivity |].
    unfold navChange. now destruct direction as [[|? ?]|].
  - intros nav dir -> -> Hdir. cbv zeta.
    destruct dir as [|c dir]; [contradiction|].
    change (navChange ps (Some nav) (Some (c :: dir)) d)
      with (_updateLocation
              (serialize ps (_pathFromNavs d ps (Some nav) None None))
              (c :: dir)
              (setSegments d (_pathFromNavs d ps (Some nav) None None))).
    set (path := _pathFromNavs d ps (Some nav) None None).
    set (d0 := setSegments d path).
    split; [|split].
    + now rewrite _updateLocation_fields.
    + apply _isCurrentUrl_true.
      apply (_updateLocation_top d0 (serialize ps path) (c :: dir)).
    + destruct (_updateLocation_cases d0 (serialize ps path) (c :: dir))
        as [(-> & _)|[(-> & _)|(-> & _)]]; simpl; tauto.
Qed.

End PathExtras.

Lemma _pathFromNavs_root_first_witness :
  _pathFromNavs (appLinker [] None) appPaths (Some settingsNode) None None
  = _pathFromNavs (appLinker [] None) appPaths (Some rootNode) None None
    ++ [tabSelectorSegment (js "settings"); selectorSegment (js "list")] /\
  _pathFromNavs (appLinker [] None) appPaths (Some rootNode)
                (Some DetailPage) None
  = [] ++ [pageSegment DetailPage None].
Proof.
  split.
  - apply (proj2 (_pathFromNavs_root_first (appLinker [] None) appPaths
                    true (Some (viewOf ListPage "list")) (Some settingsTab)
                    (Some tabsNode) None None (selectorSegment (js "list"))
                    eq_refl) settingsTab eq_refl).
  - apply (proj1 (_pathFromNavs_root_first (appLinker [] None) appPaths
                    true (Some (viewOf HomePage "home")) None None
                    (Some DetailPage) None (pageSegment DetailPage None)
                    eq_refl) eq_refl).
Defined.

Lemma _pathFromNavs_stops_witness :
  _pathFromNavs (appLinker [] None) appPaths (Some tabsNode) None None = [] /\
  _pathFromNavs (appLinker [] None) appPaths
    (Some (mkNode true (Some (viewOf ListPage "list")) None (Some tabsNode)))
    None None
  = [selectorSegment (js "list")] /\
  _pathFromNavs (appLinker [] None) appPaths
    (Some (mkNode true (Some (viewOf ListPage "list")) (Some settingsTab)
                  (Some (mkNode false None None (Some tabsNode)))))
    None None
  = [selectorSegment (js "settings"); selectorSegment (js "list")].
Proof.
  destruct (_pathFromNavs_stops (appLinker [] None) appPaths tabsNode None None
              eq_refl) as (Hempty & Hcut & Htab).
  split; [exact Hempty|]. split.
  - apply (Hcut eq_refl eq_refl true (Some (viewOf ListPage "list")) None None
                (selectorSegment (js "list"))).
    reflexivity.
  - apply (Htab eq_refl eq_refl true (Some (viewOf ListPage "list")) settingsTab
                (mkNode false None None (Some tabsNode)) None None
                (selectorSegment (js "list")));
      reflexivity.
Defined.

(** A url that is not in normal form comes back changed, and is then a
    new location: [list] is recorded as it is, and its echo as [/list]. *)
Example _updateLocation_echo_of_bare_url :
  _history (fst (_updateLocation (js "list") (js "forward") (appLinker [] None)))
  = [js "list"] /\
  _history (fst (onLocationChange (js "list")
                   (fst (_updateLocation (js "list") (js "forward")
                                         (appLinker [] None)))))
  = [js "list"; js "/list"].
Proof. split; reflexivity. Qed.

Lemma _updateLocation_echo_ignored_witness :
  onLocationChange (js "/list/detail/12")
    (fst (_updateLocation (js "/list/detail/12") (js "forward")
                          (appLinker [js "/list"] None)))
  = (appLinker [js "/list"; js "/list/detail/12"] None, []).
Proof.
  exact (_updateLocation_echo_ignored (appLinker [js "/list"] None)
           (js "/list/detail/12") (js "forward") eq_refl).
Defined.

Lemma createUrl_without_component_witness :
  createUrl appPaths (appLinker [] None) (Some rootNode) (inl (js "lazy"))
            (Some [(js "id", js "7")]) false
  = serialize appPaths
      (_pathFromNavs (appLinker [] None) appPaths (Some rootNode) None None).
Proof.
  apply (createUrl_without_component appPaths (appLinker [] None)
           (Some (viewOf HomePage "home")) None None (viewOf HomePage "home")
           (inl (js "lazy")) (Some [(js "id", js "7")]) false
           {| seg_id := js "lazy"; seg_name := js "lazy";
              seg_component := None; seg_data := None; seg_navId := None;
              seg_defaultHistory := None |});
    reflexivity.
Defined.

Lemma navChange_settles_witness :
  navChange appPaths (Some settingsNode) None (appLinker [js "/home"] None)
  = (appLinker [js "/home"] None, []) /\
  _segments (fst (navChange appPaths (Some settingsNode) (Some (js "forward"))
                    (appLinker [js "/home"] None)))
  = [selectorSegment (js "home"); tabSelectorSegment (js "settings");
     selectorSegment (js "list")] /\
  _isCurrentUrl (fst (navChange appPaths (Some settingsNode)
                        (Some (js "forward")) (appLinker [js "/home"] None)))
                (js "/home/settings/list") = true.
Proof.
  destruct (navChange_settles appPaths (Some settingsNode) None
              (appLinker [js "/home"] None)) as [Hnone _].
  destruct (navChange_settles appPaths (Some settingsNode) (Some (js "forward"))
              (appLinker [js "/home"] None)) as [_ Hsome].
  split; [apply Hnone; now left|].
  destruct (Hsome settingsNode (js "forward") eq_refl eq_refl
                  ltac:(discriminate)) as (Hpath & Hcur & _).
  split; [exact Hpath | exact Hcur].
Defined.
